(** * go-set: a shallow embedding of [set.go]

    [Set[E]] is a struct holding one Go map, [m map[E]struct{}].  A Go map
    value is a reference to a heap object (or nil), so copies of a [Set]
    struct alias the same storage.  The model keeps that: a heap maps
    locations to the key sets of the allocated maps, and a [Set] value holds
    an optional location.  Methods with a pointer receiver return the updated
    struct; everything that writes to a map returns the updated heap. *)

From Stdlib Require Import ZArith Ascii DecimalString.
From Stdlib Require DecimalFacts DecimalPos.
From stdpp Require Import gmap strings list sorting.

#[local] Set Warnings "-clear-no-such-hyp".
Local Open Scope Z_scope.

(** Addresses of allocated map objects. *)
Abbreviation loc := positive.

(** Outcome of a call that may panic. *)
Inductive outcome (A : Type) : Type :=
  | Returns (a : A)
  | Panics (msg : string).
Arguments Returns {A} a.
Arguments Panics {A} msg.

(** Go [error] values.  The only errors this package hands on are those of
    [encoding/json]; their text is not modelled. *)
Inductive error : Type :=
  | DecodeError
  | EncodeError.

Section goset.
Context `{Countable E}.

(** The heap of [map[E]struct{}] objects, for an element type whose [==]
    is equality of values (integers, strings, booleans, pointers, and the
    arrays and structs made of them): each location holds the key set of
    the map stored there.  An element type with a value that differs from
    itself, such as a floating-point NaN, is the subject of [Comparable]
    below; [key_sets] relates the two. *)
Abbreviation heap := (gmap loc (gset E)).

(** [type Set[E comparable] struct { m map[E]struct{}; _ nocmp }];
    [nocmp] is a zero-size marker and carries no data. *)
Record Set_ : Type := mkSet { m : option loc }.

(** The zero value, [var s Set[E]]. *)
Definition zero : Set_ := mkSet None.

(** Order in which one [range] statement visits the keys of a map.  Go
    leaves it unspecified and picks it anew for every loop; a traversal is
    any enumeration of the keys, each exactly once. *)
Record Traversal : Type := mkTraversal {
  keys :> gset E → list E;
  keys_perm : ∀ X, keys X ≡ₚ elements X
}.

Definition elements_order : Traversal :=
  mkTraversal elements (λ X, reflexivity (elements X)).

Definition reverse_order : Traversal :=
  mkTraversal (λ X, reverse (elements X)) (λ X, reverse_Permutation (elements X)).

(** ** Primitive map operations *)

(** The keys of a map value; a nil map reads as empty. *)
Definition deref (h : heap) (p : option loc) : gset E :=
  match p with
  | None => ∅
  | Some l => default ∅ (h !! l)
  end.

(** [len(p)] *)
Definition len (h : heap) (p : option loc) : Z := Z.of_nat (size (deref h p)).

(** [make(map[E]struct{})] *)
Definition make_map (h : heap) : loc * heap :=
  let l := fresh (dom h) in (l, <[l := ∅]> h).

(** [p[w] = struct{}{}] on a non-nil map *)
Definition map_assign (l : loc) (w : E) (h : heap) : heap :=
  alter (λ X, {[w]} ∪ X) l h.

(** [delete(p, w)]; a no-op on a nil map *)
Definition map_delete (p : option loc) (w : E) (h : heap) : heap :=
  match p with
  | None => h
  | Some l => alter (λ X, X ∖ {[w]}) l h
  end.

(** [clear(p)]; a no-op on a nil map *)
Definition map_clear (p : option loc) (h : heap) : heap :=
  match p with
  | None => h
  | Some l => alter (λ _, ∅) l h
  end.

(** [_, ok := p[v]] *)
Definition map_has (h : heap) (p : option loc) (v : E) : bool :=
  bool_decide (v ∈ deref h p).

(** [maps.Clone(p)]: nil stays nil, otherwise a new map with the same keys *)
Definition maps_Clone (p : option loc) (h : heap) : option loc * heap :=
  match p with
  | None => (None, h)
  | Some _ => let l := fresh (dom h) in (Some l, <[l := deref h p]> h)
  end.

(** ** Methods of [Set] *)

(** [func (s *Set[E]) Add(v ...E)] *)
Definition Add (s : Set_) (v : list E) (h : heap) : Set_ * heap :=
  let '(l, h1) := match m s with
                  | None => make_map h
                  | Some l => (l, h)
                  end in
  (mkSet (Some l), foldl (λ h' w, map_assign l w h') h1 v).

(** [func Of[E comparable](v ...E) Set[E]] *)
Definition Of (v : list E) (h : heap) : Set_ * heap := Add zero v h.

(** [func (s *Set[E]) AddSeq(seq iter.Seq[E])]; a sequence is modelled by
    the finite list of the values it yields. *)
Definition AddSeq (s : Set_) (seq : list E) (h : heap) : Set_ * heap :=
  foldl (λ '(s', h') v, Add s' [v] h') (s, h) seq.

(** [func (s Set[E]) Clear()] *)
Definition Clear (s : Set_) (h : heap) : heap := map_clear (m s) h.

(** [func (s Set[E]) Clone() Set[E]] *)
Definition Clone (s : Set_) (h : heap) : Set_ * heap :=
  let '(p, h') := maps_Clone (m s) h in (mkSet p, h').

(** [func (s Set[E]) Contains(v E) bool] *)
Definition Contains (h : heap) (s : Set_) (v : E) : bool := map_has h (m s) v.

(** [func (s Set[E]) ContainsAny(seq iter.Seq[E]) bool] *)
Definition ContainsAny (h : heap) (s : Set_) (seq : list E) : bool :=
  existsb (map_has h (m s)) seq.

(** [func (s Set[E]) ContainsAll(seq iter.Seq[E]) bool] *)
Definition ContainsAll (h : heap) (s : Set_) (seq : list E) : bool :=
  forallb (map_has h (m s)) seq.

(** [func (s Set[E]) ContainsFunc(f func(E) bool) bool]; [None] is the nil
    function. *)
Definition ContainsFunc (tr : Traversal) (h : heap) (s : Set_)
    (f : option (E → bool)) : bool :=
  match f with
  | None => false
  | Some f =>
      if bool_decide (len h (m s) = 0) then false
      else existsb f (tr (deref h (m s)))
  end.

(** [func (s Set[E]) Delete(v ...E) int] *)
Definition Delete (s : Set_) (v : list E) (h : heap) : Z * heap :=
  let ln := len h (m s) in
  let h' := foldl (λ h' w, map_delete (m s) w h') h v in
  (ln - len h' (m s), h').

(** [func (s Set[E]) DeleteFunc(del func(E) bool) int] *)
Definition DeleteFunc (tr : Traversal) (s : Set_) (del : option (E → bool))
    (h : heap) : Z * heap :=
  match del with
  | None => (0, h)
  | Some del =>
      let ln := len h (m s) in
      let h' := foldl (λ h' v, if del v then map_delete (m s) v h' else h')
                      h (tr (deref h (m s))) in
      (ln - len h' (m s), h')
  end.

(** [func (s Set[E]) DeleteSeq(seq iter.Seq[E]) int] *)
Definition DeleteSeq (s : Set_) (seq : list E) (h : heap) : Z * heap :=
  foldl (λ '(c, h') v,
           if map_has h' (m s) v then (c + 1, map_delete (m s) v h')
           else (c, h'))
        (0, h) seq.

(** [func (s Set[E]) Equal(u Set[E]) bool] *)
Definition Equal (tr : Traversal) (h : heap) (s u : Set_) : bool :=
  if negb (bool_decide (len h (m s) = len h (m u))) then false
  else if bool_decide (len h (m s) = 0) && bool_decide (len h (m u) = 0)
  then true
  else forallb (Contains h u) (tr (deref h (m s))).

(** [func (s Set[E]) IsZero() bool] *)
Definition IsZero (s : Set_) : bool := bool_decide (m s = None).

(** [func (s Set[E]) Pop() (E, bool)]; [zeroE] is the zero value of [E]. *)
Definition Pop (tr : Traversal) (zeroE : E) (s : Set_) (h : heap)
    : (E * bool) * heap :=
  if bool_decide (len h (m s) = 0) then ((zeroE, false), h)
  else
    let v := hd zeroE (tr (deref h (m s))) in
    ((v, true), map_delete (m s) v h).

(** [func (s Set[E]) Size() int] *)
Definition Size (h : heap) (s : Set_) : Z := len h (m s).

(** [func (s Set[E]) All() iter.Seq[E]] *)
Definition All (tr : Traversal) (h : heap) (s : Set_) : list E :=
  tr (deref h (m s)).

(** ** Heap discipline *)

(** A map value that Go can hold: nil, or a pointer to an allocated map. *)
Definition valid (h : heap) (p : option loc) : Prop :=
  match p with
  | None => True
  | Some l => l ∈ dom h
  end.

Definition wf (h : heap) (s : Set_) : Prop := valid h (m s).

(** A computation that starts with the map value [p] in heap [h] and ends
    with [p'] in [h'] stays within its own storage: every other map
    allocated in [h] is left as it was and is not what [p'] points to. *)
Definition frame (p : option loc) (h : heap) (p' : option loc) (h' : heap)
    : Prop :=
  valid h' p' ∧ dom h ⊆ dom h' ∧
  ∀ l, l ∈ dom h → p ≠ Some l → h' !! l = h !! l ∧ p' ≠ Some l.

(** An allocated result that holds at least one key; a zero set is in this
    state trivially. *)
Definition live (h : heap) (r : Set_) : Prop :=
  match m r with
  | None => True
  | Some l => ∃ X, h !! l = Some X ∧ X ≠ ∅
  end.

(** ** Rendering *)

(** [slices.Sort] on [[]string]: ascending in the byte-wise order of Go
    strings. *)
Fixpoint sort_insert (x : string) (l : list string) : list string :=
  match l with
  | [] => [x]
  | y :: l' => if String.leb x y then x :: l else y :: sort_insert x l'
  end.

Definition slices_Sort (p : list string) : list string :=
  foldr sort_insert [] p.

(** [strings.Join(p, sep)] *)
Definition strings_Join (p : list string) (sep : string) : string :=
  String.concat sep p.

(** [func (s Set[E]) String() string]; [Sprint] is [fmt.Sprint] at the
    element type. *)
Definition String_ (Sprint : E → string) (tr : Traversal) (h : heap)
    (s : Set_) : string :=
  let p := foldl (λ p x, p ++ [Sprint x]) [] (All tr h s) in
  ("{" +:+ strings_Join (slices_Sort p) " " +:+ "}")%string.

(** ** JSON *)

Section json.
(** [encoding/json] at the slice type [[]T] is outside the package.
    [json_Marshal v] is [json.Marshal(v)] for a non-nil slice [v], and
    [json_Unmarshal b] is [json.Unmarshal(b, &i)] for a fresh [var i []T]:
    the error, or the final value of [i] ([None] for a nil slice). *)
Variable json_Marshal : list E → error + string.
Variable json_Unmarshal : string → error + option (list E).

(** [func (s Set[T]) MarshalJSON() ([]byte, error)] *)
Definition MarshalJSON (tr : Traversal) (h : heap) (s : Set_)
    : error + string :=
  match m s with
  | None => inr "null"%string
  | Some _ =>
      let v := foldl (λ v x, v ++ [x]) [] (All tr h s) in
      json_Marshal v
  end.

(** [func (s *Set[T]) UnmarshalJSON(b []byte) error]: the returned error
    ([None] for nil), the receiver after the call and the heap. *)
Definition UnmarshalJSON (s : Set_) (b : string) (h : heap)
    : option error * Set_ * heap :=
  match json_Unmarshal b with
  | inl err => (Some err, s, h)
  | inr None => (None, mkSet None, h)
  | inr (Some i) =>
      let h1 := Clear s h in
      let '(s', h2) := Add s i h1 in
      (None, s', h2)
  end.
End json.

(** ** Set algebra *)

(** [func Collect[E comparable](seq iter.Seq[E]) Set[E]] *)
Definition Collect (seq : list E) (h : heap) : Set_ * heap :=
  foldl (λ '(r, h') v, Add r [v] h') (zero, h) seq.

(** [func Union[E comparable](sets ...Set[E]) Set[E]] *)
Definition Union (tr : Traversal) (sets : list Set_) (h : heap)
    : Set_ * heap :=
  foldl (λ '(r, h') s,
           foldl (λ '(r, h'') v, Add r [v] h'') (r, h') (tr (deref h' (m s))))
        (zero, h) sets.

(** [func Difference[E comparable](s Set[E], others ...Set[E]) Set[E]] *)
Definition Difference (tr : Traversal) (s : Set_) (others : list Set_)
    (h : heap) : Set_ * heap :=
  if bool_decide (length others = 0%nat) then (s, h)
  else
    let '(o, h1) := Union tr others h in
    foldl (λ '(r, h') v,
             if negb (Contains h' o v) then Add r [v] h' else (r, h'))
          (zero, h1) (tr (deref h1 (m s))).

(** [func Intersection[E comparable](sets ...Set[E]) Set[E]] *)
Definition Intersection (tr : Traversal) (sets : list Set_) (h : heap)
    : Set_ * heap :=
  if bool_decide (length sets < 2)%nat then (zero, h)
  else
    match sets with
    | [] => (zero, h)
    | s0 :: rest =>
        foldl (λ '(r, h') v,
                 if forallb (λ s, Contains h' s v) rest
                 then Add r [v] h' else (r, h'))
              (zero, h) (tr (deref h (m s0)))
    end.

(** ** Extremal values *)

Section extremal.
(** The zero value of [E], the initial content of [var m E]. *)
Variable zeroE : E.

(** [for x := range s.All() { m = x; break }] *)
Definition first_of (tr : Traversal) (h : heap) (s : Set_) : E :=
  hd zeroE (All tr h s).

Section ordered.
(** The [<] of a [cmp.Ordered] element type, and the built-ins [max] and
    [min] it gives for operands that [<] orders.  The element types of this
    section are those whose [==] is equality of values, so no value is a
    floating-point NaN, the one operand on which Go's [max] and [min] do
    something else (they return the NaN). *)
Variable less : E → E → bool.

Definition builtin_max (x y : E) : E := if less x y then y else x.
Definition builtin_min (x y : E) : E := if less y x then y else x.

(** [func Max[E comparableAndOrderable](s Set[E]) E]; the two loops range
    over the map independently. *)
Definition Max (tr1 tr2 : Traversal) (h : heap) (s : Set_) : outcome E :=
  if bool_decide (Size h s < 1) then Panics "set.Max: empty set"
  else
    let m0 := first_of tr1 h s in
    Returns (foldl (λ m x, builtin_max m x) m0 (All tr2 h s)).

(** [func Min[E comparableAndOrderable](s Set[E]) E] *)
Definition Min (tr1 tr2 : Traversal) (h : heap) (s : Set_) : outcome E :=
  if bool_decide (Size h s < 1) then Panics "set.Min: empty set"
  else
    let m0 := first_of tr1 h s in
    Returns (foldl (λ m x, builtin_min m x) m0 (All tr2 h s)).
End ordered.

(** Calling a nil function value panics. *)
Definition nil_call : string :=
  "runtime error: invalid memory address or nil pointer dereference".

(** [func MaxFunc[E comparable](s Set[E], cmp func(a, b E) int) E]; [None]
    is the nil function, whose call in the first pass of the second loop
    panics. *)
Definition MaxFunc (tr1 tr2 : Traversal) (h : heap) (s : Set_)
    (cmp : option (E → E → Z)) : outcome E :=
  if bool_decide (Size h s < 1) then Panics "set.MaxFunc: empty set"
  else
    let m0 := first_of tr1 h s in
    match cmp with
    | Some cmp =>
        Returns (foldl (λ m x, if bool_decide (cmp x m > 0) then x else m)
                       m0 (All tr2 h s))
    | None =>
        match All tr2 h s with
        | [] => Returns m0
        | _ :: _ => Panics nil_call
        end
    end.

(** [func MinFunc[E comparable](s Set[E], cmp func(a, b E) int) E] *)
Definition MinFunc (tr1 tr2 : Traversal) (h : heap) (s : Set_)
    (cmp : option (E → E → Z)) : outcome E :=
  if bool_decide (Size h s < 1) then Panics "set.MinFunc: empty set"
  else
    let m0 := first_of tr1 h s in
    match cmp with
    | Some cmp =>
        Returns (foldl (λ m x, if bool_decide (cmp x m < 0) then x else m)
                       m0 (All tr2 h s))
    | None =>
        match All tr2 h s with
        | [] => Returns m0
        | _ :: _ => Panics nil_call
        end
    end.
End extremal.

(** ** Mutating calls *)

(** The calls that can change a set, with their arguments; [mutate] runs one
    on a receiver and keeps the receiver and the heap, dropping the
    returned value. *)
Inductive mutation : Type :=
  | CallAdd (v : list E)
  | CallAddSeq (seq : list E)
  | CallClear
  | CallDelete (v : list E)
  | CallDeleteFunc (tr : Traversal) (del : option (E → bool))
  | CallDeleteSeq (seq : list E)
  | CallPop (tr : Traversal) (zeroE : E)
  | CallUnmarshalJSON (json_Unmarshal : string → error + option (list E))
                      (b : string).

Definition mutate (op : mutation) (s : Set_) (h : heap) : Set_ * heap :=
  match op with
  | CallAdd v => Add s v h
  | CallAddSeq seq => AddSeq s seq h
  | CallClear => (s, Clear s h)
  | CallDelete v => (s, (Delete s v h).2)
  | CallDeleteFunc tr del => (s, (DeleteFunc tr s del h).2)
  | CallDeleteSeq seq => (s, (DeleteSeq s seq h).2)
  | CallPop tr zeroE => (s, (Pop tr zeroE s h).2)
  | CallUnmarshalJSON dec b =>
      let '(_, s', h') := UnmarshalJSON dec s b h in (s', h')
  end.

Definition mutate_all (ops : list mutation) (s : Set_) (h : heap)
    : Set_ * heap :=
  foldl (λ '(s', h') op, mutate op s' h') (s, h) ops.

(** ** Outcomes *)

Definition panics {A : Type} (o : outcome A) : Prop :=
  match o with
  | Panics _ => True
  | Returns _ => False
  end.

(** [o] returns a member of [s] that no member of [s] beats. *)
Definition returns_unbeaten (beats : E → E → Prop) (h : heap) (s : Set_)
    (o : outcome E) : Prop :=
  ∃ x, o = Returns x ∧ Contains h s x = true ∧
       ∀ y, Contains h s y = true → ¬ beats y x.

(** A three-way comparison: the sign of [cmp a b] flips when the arguments
    are swapped, and "not greater" is transitive. *)
Definition three_way (cmp : E → E → Z) : Prop :=
  (∀ a b, Z.sgn (cmp a b) = - Z.sgn (cmp b a)) ∧
  (∀ a b c, cmp a b ≤ 0 → cmp b c ≤ 0 → cmp a c ≤ 0).

(** A strict order [<]. *)
Definition strict_order (less : E → E → bool) : Prop :=
  (∀ a, less a a = false) ∧
  (∀ a b c, less a b = true → less b c = true → less a c = true).

End goset.

(** * [encoding/json] at [[]int]

    The decoder and encoder that [json.Unmarshal] and [json.Marshal] are for
    a slice of Go [int]s (64-bit), written as a scanner over the input
    bytes.  An input is accepted when it is, between optional white space,
    the literal [null] or an array whose elements are integer literals in
    the range of [int] or [null]; every other input (other JSON values,
    numbers with a fraction or exponent, malformed text) is an error. *)
Module IntJSON.

Definition min_int : Z := - 2 ^ 63.
Definition max_int : Z := 2 ^ 63 - 1.

Definition in_range (n : Z) : bool := (min_int <=? n) && (n <=? max_int).

Inductive state : Type :=
  | Start
  | TopNull (k : nat)
  | ArrOpen
  | ElemNull (k : nat) (acc : list Z)
  | ElemSign (acc : list Z)
  | ElemZero (acc : list Z)
  | ElemDigits (neg : bool) (n : Z) (acc : list Z)
  | AfterElem (acc : list Z)
  | AfterComma (acc : list Z)
  | Finished (r : option (list Z))
  | Failed.

Definition is_space (c : ascii) : bool :=
  match c with
  | " "%char | "009"%char | "010"%char | "013"%char => true
  | _ => false
  end.

(** Whether [b] is white space only. *)
Fixpoint all_space (b : string) : bool :=
  match b with
  | EmptyString => true
  | String c b' => is_space c && all_space b'
  end.

(** The value of a decimal digit, [c - '0'] when ['0' <= c && c <= '9']. *)
Definition digit_of (c : ascii) : option Z :=
  let n := Z.of_N (N_of_ascii c) in
  if (48 <=? n) && (n <=? 57) then Some (n - 48) else None.

(** The letter expected after [k] letters of [null]. *)
Definition null_letter (k : nat) : ascii :=
  match k with
  | 1%nat => "u"%char
  | _ => "l"%char
  end.

(** An element is complete: store it if it fits an [int]. *)
Definition close_number (neg : bool) (n : Z) (acc : list Z) : option (list Z) :=
  let v := if neg then - n else n in
  if in_range v then Some (acc ++ [v]) else None.

(** The byte [c] directly after a complete element whose values so far are
    [acc]. *)
Definition after_element (acc : list Z) (c : ascii) : state :=
  if is_space c then AfterElem acc
  else match c with
       | ","%char => AfterComma acc
       | "]"%char => Finished (Some acc)
       | _ => Failed
       end.

(** The first byte of an array element. *)
Definition begin_element (acc : list Z) (c : ascii) : state :=
  match c with
  | "n"%char => ElemNull 1 acc
  | "-"%char => ElemSign acc
  | "0"%char => ElemZero acc
  | _ => match digit_of c with
         | Some d => ElemDigits false d acc
         | None => Failed
         end
  end.

Definition step (st : state) (c : ascii) : state :=
  match st with
  | Start =>
      if is_space c then Start
      else match c with
           | "n"%char => TopNull 1
           | "["%char => ArrOpen
           | _ => Failed
           end
  | TopNull k =>
      if Ascii.eqb c (null_letter k)
      then (if (k =? 3)%nat then Finished None else TopNull (S k))
      else Failed
  | ArrOpen =>
      if is_space c then ArrOpen
      else match c with
           | "]"%char => Finished (Some [])
           | _ => begin_element [] c
           end
  | ElemNull k acc =>
      if Ascii.eqb c (null_letter k)
      then (if (k =? 3)%nat then AfterElem (acc ++ [0]) else ElemNull (S k) acc)
      else Failed
  | ElemSign acc =>
      match c with
      | "0"%char => ElemZero acc
      | _ => match digit_of c with
             | Some d => ElemDigits true d acc
             | None => Failed
             end
      end
  | ElemZero acc => after_element (acc ++ [0]) c
  | ElemDigits neg n acc =>
      match digit_of c with
      | Some d => ElemDigits neg (10 * n + d) acc
      | None =>
          match close_number neg n acc with
          | Some acc' => after_element acc' c
          | None => Failed
          end
      end
  | AfterElem acc => after_element acc c
  | AfterComma acc =>
      if is_space c then AfterComma acc else begin_element acc c
  | Finished r => if is_space c then Finished r else Failed
  | Failed => Failed
  end.

(** The state in which the literal of [x] has been read as the element
    that follows the values [acc]. *)
Definition element_read (x : Z) (acc : list Z) : state :=
  match x with
  | 0 => ElemZero acc
  | Z.pos p => ElemDigits false (Z.pos p) acc
  | Z.neg p => ElemDigits true (Z.pos p) acc
  end.

(** A state in which the next byte that is neither white space nor []]
    starts an element that follows the values [acc]. *)
Definition awaits_element (st : state) (acc : list Z) : Prop :=
  ∀ c, is_space c = false → c ≠ "]"%char → step st c = begin_element acc c.

Fixpoint scan (st : state) (b : string) : state :=
  match b with
  | EmptyString => st
  | String c b' => scan (step st c) b'
  end.

(** [json.Unmarshal(b, &i)] for [var i []int] *)
Definition json_Unmarshal (b : string) : error + option (list Z) :=
  match scan Start b with
  | Finished r => inr r
  | _ => inl DecodeError
  end.

(** [strconv.Itoa] *)
Definition itoa (n : Z) : string := NilZero.string_of_int (Z.to_int n).

(** [json.Marshal(v)] for a non-nil [v []int] *)
Definition json_Marshal (v : list Z) : error + string :=
  inr ("[" +:+ String.concat "," (itoa <$> v) +:+ "]")%string.

End IntJSON.


(** * Worked instances at [Set[int]] *)

Module Examples.

(** [cmp.Compare] at [int] *)
Definition int_Compare (a b : Z) : Z :=
  match a ?= b with
  | Lt => -1
  | Eq => 0
  | Gt => 1
  end.

(** The heap after [a := set.Of(1, 2, 3, 4); b := set.Of(3, 4, 5, 6)] *)
Definition a_set : Set_ := (Of [1; 2; 3; 4] (∅ : gmap loc (gset Z))).1.
Definition a_heap : gmap loc (gset Z) := (Of [1; 2; 3; 4] ∅).2.
Definition b_set : Set_ := (Of [3; 4; 5; 6] a_heap).1.
Definition ab_heap : gmap loc (gset Z) := (Of [3; 4; 5; 6] a_heap).2.

End Examples.

(** * [encoding/json] at [[]chan int]

    A channel is comparable, so [Set[chan int]] is a set type, but
    [encoding/json] has no encoder for channels: [json.Marshal] writes [[]]
    for an empty slice and fails with an unsupported-type error at the first
    element of any other.  A channel value is nil or the address of a
    channel, and [==] is identity. *)
Module ChanJSON.

Definition json_Marshal (v : list (option positive)) : error + string :=
  match v with
  | [] => inr "[]"%string
  | _ :: _ => inl EncodeError
  end.

End ChanJSON.

(** * Element types with values that do not equal themselves

    The sections above take [==] on the element type to be equality of
    values, which it is for integers, strings, booleans, pointers, channels
    and what is built from them.  A floating-point NaN is not [==] to
    itself, and a Go map treats such a key in its own way: a lookup never
    finds it, every assignment adds one more entry, [delete] removes
    nothing, and [range], [len] and [clear] see the entries.  This module
    embeds the methods over such maps: [self_equal x] is [x == x], and a map
    object holds the keys that lookups find together with the entries under
    keys that are not equal to themselves. *)
Module Comparable.
Section comparable.
Context `{Countable E}.
Variable self_equal : E → bool.

(** [x == y] *)
Definition go_eq (x y : E) : bool :=
  self_equal x && self_equal y && bool_decide (x = y).

Record gomap : Type := mkMap { found : gset E; unfound : list E }.

Abbreviation heap := (gmap loc gomap).

Definition empty_map : gomap := mkMap ∅ [].

Record Traversal : Type := mkTraversal {
  keys :> gomap → list E;
  keys_perm : ∀ c, keys c ≡ₚ elements (found c) ++ unfound c
}.

Definition entries_order : Traversal :=
  mkTraversal (λ c, elements (found c) ++ unfound c)
              (λ c, reflexivity (elements (found c) ++ unfound c)).

Definition deref (h : heap) (p : option loc) : gomap :=
  match p with
  | None => empty_map
  | Some l => default empty_map (h !! l)
  end.

(** [len(p)] *)
Definition len (h : heap) (p : option loc) : Z :=
  Z.of_nat (size (found (deref h p)) + length (unfound (deref h p))).

(** [make(map[E]struct{})] *)
Definition make_map (h : heap) : loc * heap :=
  let l := fresh (dom h) in (l, <[l := empty_map]> h).

(** [p[w] = struct{}{}] *)
Definition map_assign (l : loc) (w : E) (h : heap) : heap :=
  alter (λ c, if self_equal w then mkMap ({[w]} ∪ found c) (unfound c)
              else mkMap (found c) (unfound c ++ [w])) l h.

(** [delete(p, w)] *)
Definition map_delete (p : option loc) (w : E) (h : heap) : heap :=
  match p with
  | None => h
  | Some l => alter (λ c, if self_equal w
                          then mkMap (found c ∖ {[w]}) (unfound c) else c) l h
  end.

(** [clear(p)] *)
Definition map_clear (p : option loc) (h : heap) : heap :=
  match p with
  | None => h
  | Some l => alter (λ _, empty_map) l h
  end.

(** [_, ok := p[v]] *)
Definition map_has (h : heap) (p : option loc) (v : E) : bool :=
  self_equal v && bool_decide (v ∈ found (deref h p)).

(** [maps.Clone(p)] *)
Definition maps_Clone (p : option loc) (h : heap) : option loc * heap :=
  match p with
  | None => (None, h)
  | Some _ => let l := fresh (dom h) in (Some l, <[l := deref h p]> h)
  end.

(** [func (s *Set[E]) Add(v ...E)] *)
Definition Add (s : Set_) (v : list E) (h : heap) : Set_ * heap :=
  let '(l, h1) := match m s with
                  | None => make_map h
                  | Some l => (l, h)
                  end in
  (mkSet (Some l), foldl (λ h' w, map_assign l w h') h1 v).

(** [func Of[E comparable](v ...E) Set[E]] *)
Definition Of (v : list E) (h : heap) : Set_ * heap := Add zero v h.

(** [func (s *Set[E]) AddSeq(seq iter.Seq[E])] *)
Definition AddSeq (s : Set_) (seq : list E) (h : heap) : Set_ * heap :=
  foldl (λ '(s', h') v, Add s' [v] h') (s, h) seq.

(** [func (s Set[E]) Clear()] *)
Definition Clear (s : Set_) (h : heap) : heap := map_clear (m s) h.

(** [func (s Set[E]) Clone() Set[E]] *)
Definition Clone (s : Set_) (h : heap) : Set_ * heap :=
  let '(p, h') := maps_Clone (m s) h in (mkSet p, h').

(** [func (s Set[E]) Contains(v E) bool] *)
Definition Contains (h : heap) (s : Set_) (v : E) : bool := map_has h (m s) v.

(** [func (s Set[E]) ContainsFunc(f func(E) bool) bool] *)
Definition ContainsFunc (tr : Traversal) (h : heap) (s : Set_)
    (f : option (E → bool)) : bool :=
  match f with
  | None => false
  | Some f =>
      if bool_decide (len h (m s) = 0) then false
      else existsb f (tr (deref h (m s)))
  end.

(** [func (s Set[E]) Delete(v ...E) int] *)
Definition Delete (s : Set_) (v : list E) (h : heap) : Z * heap :=
  let ln := len h (m s) in
  let h' := foldl (λ h' w, map_delete (m s) w h') h v in
  (ln - len h' (m s), h').

(** [func (s Set[E]) DeleteFunc(del func(E) bool) int] *)
Definition DeleteFunc (tr : Traversal) (s : Set_) (del : option (E → bool))
    (h : heap) : Z * heap :=
  match del with
  | None => (0, h)
  | Some del =>
      let ln := len h (m s) in
      let h' := foldl (λ h' v, if del v then map_delete (m s) v h' else h')
                      h (tr (deref h (m s))) in
      (ln - len h' (m s), h')
  end.

(** [func (s Set[E]) DeleteSeq(seq iter.Seq[E]) int] *)
Definition DeleteSeq (s : Set_) (seq : list E) (h : heap) : Z * heap :=
  foldl (λ '(c, h') v,
           if map_has h' (m s) v then (c + 1, map_delete (m s) v h')
           else (c, h'))
        (0, h) seq.

(** [func (s Set[E]) Equal(u Set[E]) bool] *)
Definition Equal (tr : Traversal) (h : heap) (s u : Set_) : bool :=
  if negb (bool_decide (len h (m s) = len h (m u))) then false
  else if bool_decide (len h (m s) = 0) && bool_decide (len h (m u) = 0)
  then true
  else forallb (Contains h u) (tr (deref h (m s))).

(** [func (s Set[E]) Pop() (E, bool)] *)
Definition Pop (tr : Traversal) (zeroE : E) (s : Set_) (h : heap)
    : (E * bool) * heap :=
  if bool_decide (len h (m s) = 0) then ((zeroE, false), h)
  else
    let v := hd zeroE (tr (deref h (m s))) in
    ((v, true), map_delete (m s) v h).

(** [func (s Set[E]) Size() int] *)
Definition Size (h : heap) (s : Set_) : Z := len h (m s).

(** [func Collect[E comparable](seq iter.Seq[E]) Set[E]] *)
Definition Collect (seq : list E) (h : heap) : Set_ * heap :=
  foldl (λ '(r, h') v, Add r [v] h') (zero, h) seq.

(** [func (s Set[E]) All() iter.Seq[E]] *)
Definition All (tr : Traversal) (h : heap) (s : Set_) : list E :=
  tr (deref h (m s)).

(** [func (s Set[T]) MarshalJSON() ([]byte, error)], with [json.Marshal]
    at [[]T] as a parameter. *)
Definition MarshalJSON (json_Marshal : list E → error + string)
    (tr : Traversal) (h : heap) (s : Set_) : error + string :=
  match m s with
  | None => inr "null"%string
  | Some _ =>
      let v := foldl (λ v x, v ++ [x]) [] (All tr h s) in
      json_Marshal v
  end.

(** [func (s *Set[T]) UnmarshalJSON(b []byte) error], with
    [json.Unmarshal] at [[]T] as a parameter. *)
Definition UnmarshalJSON (json_Unmarshal : string → error + option (list E))
    (s : Set_) (b : string) (h : heap) : option error * Set_ * heap :=
  match json_Unmarshal b with
  | inl err => (Some err, s, h)
  | inr None => (None, mkSet None, h)
  | inr (Some i) =>
      let h1 := Clear s h in
      let '(s', h2) := Add s i h1 in
      (None, s', h2)
  end.

(** The mutating calls, as for the maps above. *)
Inductive mutation : Type :=
  | CallAdd (v : list E)
  | CallAddSeq (seq : list E)
  | CallClear
  | CallDelete (v : list E)
  | CallDeleteFunc (tr : Traversal) (del : option (E → bool))
  | CallDeleteSeq (seq : list E)
  | CallPop (tr : Traversal) (zeroE : E)
  | CallUnmarshalJSON (json_Unmarshal : string → error + option (list E))
                      (b : string).

Definition mutate (op : mutation) (s : Set_) (h : heap) : Set_ * heap :=
  match op with
  | CallAdd v => Add s v h
  | CallAddSeq seq => AddSeq s seq h
  | CallClear => (s, Clear s h)
  | CallDelete v => (s, (Delete s v h).2)
  | CallDeleteFunc tr del => (s, (DeleteFunc tr s del h).2)
  | CallDeleteSeq seq => (s, (DeleteSeq s seq h).2)
  | CallPop tr zeroE => (s, (Pop tr zeroE s h).2)
  | CallUnmarshalJSON dec b =>
      let '(_, s', h') := UnmarshalJSON dec s b h in (s', h')
  end.

Definition mutate_all (ops : list mutation) (s : Set_) (h : heap)
    : Set_ * heap :=
  foldl (λ '(s', h') op, mutate op s' h') (s, h) ops.

(** A set whose map value is nil or points to an allocated map. *)
Definition wf (h : heap) (s : Set_) : Prop :=
  match m s with
  | None => True
  | Some l => l ∈ dom h
  end.

(** The element type has no value that differs from itself. *)
Definition reflexive : Prop := ∀ x, self_equal x = true.

(** No map of the heap holds an entry under a key that differs from
    itself; so it is in every heap when the element type is [reflexive]. *)
Definition no_unfound (h : heap) : Prop :=
  ∀ l c, h !! l = Some c → unfound c = [].

End comparable.
End Comparable.

(** ** From maps with unfound entries to key sets

    When no map holds an unfound entry, a heap is described by the key sets
    of its maps, and a visiting order of the maps gives one of the key
    sets. *)
Definition key_sets `{Countable E} (h : gmap loc (Comparable.gomap (E:=E)))
    : gmap loc (gset E) :=
  Comparable.found <$> h.

Definition set_order `{Countable E} (tr : Comparable.Traversal (E:=E))
    : Traversal (E:=E) :=
  mkTraversal (λ X, Comparable.keys tr (Comparable.mkMap X []))
    (λ X, eq_ind _ (λ k, Comparable.keys tr (Comparable.mkMap X []) ≡ₚ k)
            (Comparable.keys_perm tr (Comparable.mkMap X [])) _
            (app_nil_r (elements X))).

(** The result of a call, with its heap seen as key sets. *)
Definition on_key_sets `{Countable E} {A : Type}
    (r : A * gmap loc (Comparable.gomap (E:=E))) : A * gmap loc (gset E) :=
  (r.1, key_sets r.2).


(** [Set[float64]]: the values used are NaN, [None], and the numbers [n],
    [Some n]. *)
Module Float64.

Definition self_equal (x : option Z) : bool :=
  match x with
  | Some _ => true
  | None => false
  end.



End Float64.

(** [Set[int]] in the same model: every value equals itself. *)
Module IntKeys.

Definition self_equal (x : Z) : bool := true.

(** [c := set.Of(1, 2, 3)] on the empty heap *)
Definition c_set : Set_ :=
  (Comparable.Of self_equal [1; 2; 3]
     (∅ : gmap loc (Comparable.gomap (E:=Z)))).1.
Definition c_heap : gmap loc (Comparable.gomap (E:=Z)) :=
  (Comparable.Of self_equal [1; 2; 3] ∅).2.

End IntKeys.

(** * Properties *)

Section goset_facts.
Context `{Countable E}.
Implicit Types (h : gmap loc (gset E)) (s u t r : Set_) (p : option loc).
Implicit Types (l : loc) (v : list E) (w x y : E) (tr : Traversal (E:=E)).

(** ** Traversals *)

Lemma elem_of_traversal tr (X : gset E) x : x ∈ tr X ↔ x ∈ X.
Proof. by rewrite (keys_perm tr X), elem_of_elements. Qed.

Lemma traversal_nil tr (X : gset E) : tr X = [] ↔ X = ∅.
Proof.
  split.
  - intros Hnil. apply set_eq. intros x.
    rewrite <- (elem_of_traversal tr), Hnil. set_solver.
  - intros ->. apply Permutation_nil_r.
    by rewrite (keys_perm tr ∅), elements_empty.
Qed.

Lemma foldl_snoc {A} (bs acc : list A) :
  foldl (λ a b, a ++ [b]) acc bs = acc ++ bs.
Proof.
  revert acc. induction bs as [|b bs IH]; intros acc; simpl.
  - by rewrite app_nil_r.
  - by rewrite IH, <- app_assoc.
Qed.

(** ** Reading a set *)

Lemma size_zero_L (X : gset E) : size X = 0%nat ↔ X = ∅.
Proof. rewrite size_empty_iff. apply leibniz_equiv_iff. Qed.

Lemma Contains_true h s x : Contains h s x = true ↔ x ∈ deref h (m s).
Proof. unfold Contains, map_has. apply bool_decide_eq_true. Qed.

Lemma Contains_false h s x : Contains h s x = false ↔ x ∉ deref h (m s).
Proof. unfold Contains, map_has. apply bool_decide_eq_false. Qed.

Lemma Size_zero h s : Size h s = 0 ↔ deref h (m s) = ∅.
Proof.
  unfold Size, len. rewrite <- size_zero_L. lia.
Qed.

Lemma Size_nonneg h s : 0 ≤ Size h s.
Proof. unfold Size, len. lia. Qed.

Lemma IsZero_true s : IsZero s = true ↔ m s = None.
Proof. unfold IsZero. apply bool_decide_eq_true. Qed.

Lemma IsZero_false s : IsZero s = false ↔ m s ≠ None.
Proof. unfold IsZero. apply bool_decide_eq_false. Qed.

Lemma IsZero_Size h s : IsZero s = true → Size h s = 0.
Proof. rewrite IsZero_true, Size_zero. by intros ->. Qed.

(** [Equal] decides equality of the key sets. *)
Lemma Equal_true tr h s u :
  Equal tr h s u = true ↔ deref h (m s) = deref h (m u).
Proof.
  unfold Equal, len.
  set (X := deref h (m s)). set (Y := deref h (m u)).
  destruct (bool_decide_reflect (Z.of_nat (size X) = Z.of_nat (size Y)))
    as [Hsz|Hsz]; simpl.
  - destruct (bool_decide_reflect (Z.of_nat (size X) = 0)) as [HX|HX]; simpl.
    + destruct (bool_decide_reflect (Z.of_nat (size Y) = 0)) as [HY|HY];
        [|lia]. simpl. split; [intros _|done].
      assert (X = ∅) as -> by (apply size_zero_L; lia).
      assert (Y = ∅) as -> by (apply size_zero_L; lia). done.
    + rewrite forallb_forall. split.
      * intros Hall. apply set_subseteq_size_eq; [|lia].
        intros x Hx. apply Contains_true, Hall, list_elem_of_In.
        by apply elem_of_traversal.
      * intros HXY x Hx. apply Contains_true. fold Y. rewrite <- HXY.
        by apply list_elem_of_In, elem_of_traversal in Hx.
  - split; [done|]. intros HXY. rewrite HXY in Hsz. done.
Qed.

(** ** Heap discipline *)

Lemma frame_refl h p : valid h p → frame p h p h.
Proof. intros Hp. split_and!; [done|done|]. intros l _ Hl. done. Qed.

Lemma frame_trans p h p1 h1 p2 h2 :
  frame p h p1 h1 → frame p1 h1 p2 h2 → frame p h p2 h2.
Proof.
  intros (_ & Hd1 & Hf1) (Hv2 & Hd2 & Hf2). split_and!; [done|set_solver|].
  intros l Hl Hp. pose proof (Hf1 l Hl Hp) as [Heq1 Hne1].
  pose proof (Hf2 l (Hd1 l Hl) Hne1) as [Heq2 Hne2].
  split; [congruence|done].
Qed.

(** A computation followed by one that builds a result of its own. *)
Lemma frame_then_fresh p h p1 h1 p2 h2 :
  frame p h p1 h1 → frame None h1 p2 h2 → frame p h p2 h2.
Proof.
  intros (_ & Hd1 & Hf1) (Hv2 & Hd2 & Hf2). split_and!; [done|set_solver|].
  intros l Hl Hp. pose proof (Hf1 l Hl Hp) as [Heq1 _].
  pose proof (Hf2 l (Hd1 l Hl) ltac:(done)) as [Heq2 Hne2].
  split; [congruence|done].
Qed.

Lemma frame_valid p h p' h' q : frame p h p' h' → valid h q → valid h' q.
Proof. intros (_ & Hd & _). destruct q as [l|]; simpl; [apply Hd|done]. Qed.

(** Other valid map values read the same before and after. *)
Lemma frame_deref p h p' h' q :
  frame p h p' h' → valid h q → q ≠ p ∨ q = None →
  deref h' q = deref h q.
Proof.
  intros (_ & _ & Hf) Hq Hne. destruct q as [l|]; [|done]. simpl in *.
  assert (p ≠ Some l) as Hp by naive_solver.
  pose proof (Hf l Hq Hp) as [Heq _]. by rewrite Heq.
Qed.

Lemma frame_fresh p h p' h' q :
  frame p h p' h' → valid h q → q ≠ p ∨ q = None → q ≠ p' ∨ q = None.
Proof.
  intros (_ & _ & Hf) Hq Hne. destruct q as [l|]; [|by right]. simpl in *.
  left. assert (p ≠ Some l) as Hp by naive_solver.
  pose proof (Hf l Hq Hp) as [_ Hp']. congruence.
Qed.

Lemma assign_all l v h :
  foldl (λ h' w, map_assign l w h') h v = alter (λ X, list_to_set v ∪ X) l h.
Proof.
  revert h. induction v as [|w v IH]; intros h; simpl.
  - apply map_eq. intros i.
    destruct (decide (l = i)) as [->|Hne]; [|by rewrite lookup_alter_ne].
    rewrite lookup_alter_eq.
    destruct (h !! i) as [X|]; simpl; [|done].
    f_equal. set_solver.
  - rewrite IH. unfold map_assign. apply map_eq. intros i.
    destruct (decide (l = i)) as [->|Hne].
    + rewrite !lookup_alter_eq.
      destruct (h !! i) as [X|]; simpl; [|done].
      f_equal. set_solver.
    + by rewrite !lookup_alter_ne.
Qed.

(** What [Add] does: the receiver is allocated afterwards, holds the old
    keys and the new ones, and no other map is touched. *)
Lemma Add_spec s v h :
  wf h s →
  m (Add s v h).1 ≠ None ∧
  deref (Add s v h).2 (m (Add s v h).1) = deref h (m s) ∪ list_to_set v ∧
  (m s ≠ None → m (Add s v h).1 = m s) ∧
  frame (m s) h (m (Add s v h).1) (Add s v h).2.
Proof.
  unfold wf, Add, make_map. destruct (m s) as [l|] eqn:Hm; simpl; intros Hv.
  - rewrite assign_all. apply elem_of_dom in Hv as [X HX].
    split_and!; [done| |done|].
    + rewrite lookup_alter_eq, HX. simpl. set_solver.
    + split_and!.
      * simpl. rewrite dom_alter_L. apply elem_of_dom. eauto.
      * by rewrite dom_alter_L.
      * intros l' Hl' Hne. split; [|done].
        rewrite lookup_alter_ne; [done|congruence].
  - rewrite assign_all. pose proof (is_fresh (dom h)) as Hfresh.
    set (l := fresh (dom h)) in *.
    split_and!; [done| |done|].
    + rewrite lookup_alter_eq, lookup_insert_eq. simpl. set_solver.
    + split_and!.
      * simpl. rewrite dom_alter_L, dom_insert_L. set_solver.
      * rewrite dom_alter_L, dom_insert_L. set_solver.
      * intros l' Hl' _. assert (l ≠ l') by (intros ->; done).
        split; [|congruence].
        rewrite lookup_alter_ne, lookup_insert_ne; done.
Qed.

Lemma Add_allocates s v h : IsZero (Add s v h).1 = false.
Proof.
  apply IsZero_false. unfold Add, make_map. by destruct (m s).
Qed.

Lemma list_to_set_traversal tr (X : gset E) : list_to_set (tr X) = X.
Proof.
  apply set_eq. intros x. by rewrite elem_of_list_to_set, elem_of_traversal.
Qed.

(** The loop shape shared by the algebra functions: visit [xs] and add to
    the result each value that passes a test, where the test reads only
    maps other than the result. *)
Lemma guarded_add_loop (f : Set_ * gmap loc (gset E) → E → Set_ * gmap loc (gset E))
    (c : gmap loc (gset E) → E → bool) (g : E → bool) r0 h0 (xs : list E) :
  (∀ r h x, f (r, h) x = if c h x then Add r [x] h else (r, h)) →
  wf h0 r0 →
  (∀ r h x, frame (m r0) h0 (m r) h → c h x = g x) →
  frame (m r0) h0 (m (foldl f (r0, h0) xs).1) (foldl f (r0, h0) xs).2 ∧
  (∀ x, x ∈ deref (foldl f (r0, h0) xs).2 (m (foldl f (r0, h0) xs).1) ↔
        x ∈ deref h0 (m r0) ∨ (x ∈ xs ∧ g x = true)) ∧
  (m (foldl f (r0, h0) xs).1 = None ↔
     m r0 = None ∧ ∀ x, x ∈ xs → g x = false) ∧
  (m r0 ≠ None → m (foldl f (r0, h0) xs).1 = m r0).
Proof.
  intros Hf Hwf Hc. induction xs as [|x xs IH] using rev_ind.
  - simpl. split_and!; [by apply frame_refl| | |done].
    + intros x. set_solver.
    + split; [intros ?; split; [done|]; intros x; set_solver|by intros [? _]].
  - rewrite foldl_app. simpl.
    destruct (foldl f (r0, h0) xs) as [r h] eqn:Hfold. simpl in IH.
    destruct IH as (Hfr & Hmem & Hnil & Hkeep).
    rewrite Hf, (Hc r h x Hfr).
    destruct (g x) eqn:Hg.
    + assert (wf h r) as Hwfr by apply Hfr.
      destruct (Add_spec r [x] h Hwfr) as (Hne & Hder & Hsame & Hfr').
      split_and!.
      * eapply frame_trans; eauto.
      * intros y. rewrite Hder, elem_of_union, Hmem. simpl.
        rewrite elem_of_app. set_solver.
      * split; [done|]. intros [_ Hall]. rewrite Hall in Hg; [done|].
        set_solver.
      * intros H0. rewrite Hsame; [by apply Hkeep|].
        rewrite Hkeep; done.
    + simpl. split_and!; [done| | |done].
      * intros y. rewrite Hmem, elem_of_app, list_elem_of_singleton.
        split; [naive_solver|].
        intros [?|[[?| ->] ?]]; [naive_solver|naive_solver|congruence].
      * rewrite Hnil. split; intros [? Hall]; (split; [done|]); intros y Hy.
        -- apply elem_of_app in Hy as [Hy|Hy%list_elem_of_singleton];
             [by apply Hall|congruence].
        -- apply Hall. set_solver.
Qed.

Lemma forallb_agree {A} (f g : A → bool) (bs : list A) :
  (∀ b, In b bs → f b = g b) → forallb f bs = forallb g bs.
Proof.
  induction bs as [|b bs IH]; intros Hfg; simpl; [done|].
  rewrite (Hfg b) by (by left). rewrite IH; [done|].
  intros b' Hb'. apply Hfg. by right.
Qed.

Lemma valid_cases p : p ≠ None ∨ p = None.
Proof. destruct p; [by left|by right]. Qed.

(** ** Set algebra *)

Lemma Collect_spec (seq : list E) h :
  frame None h (m (Collect seq h).1) (Collect seq h).2 ∧
  (∀ x, x ∈ deref (Collect seq h).2 (m (Collect seq h).1) ↔ x ∈ seq) ∧
  (m (Collect seq h).1 = None ↔ seq = []).
Proof.
  unfold Collect.
  destruct (guarded_add_loop (λ '(r, h') x, Add r [x] h')
              (λ _ _, true) (λ _, true) zero h seq)
    as (Hfr & Hmem & Hnil & _); [done|done|done|].
  split_and!; [done| |].
  - intros x. rewrite Hmem. simpl. set_solver.
  - rewrite Hnil. split.
    + intros [_ Hall]. destruct seq as [|x seq]; [done|].
      specialize (Hall x). set_solver.
    + intros ->. split; [done|]. intros x. set_solver.
Qed.

Lemma Union_snoc tr (sets : list Set_) s h :
  Union tr (sets ++ [s]) h =
  foldl (λ '(r, h') x, Add r [x] h') (Union tr sets h)
        (tr (deref (Union tr sets h).2 (m s))).
Proof.
  unfold Union. rewrite foldl_app. simpl.
  by destruct (foldl _ (zero, h) sets).
Qed.

Lemma Union_spec tr (sets : list Set_) h :
  Forall (wf h) sets →
  frame None h (m (Union tr sets h).1) (Union tr sets h).2 ∧
  (∀ x, x ∈ deref (Union tr sets h).2 (m (Union tr sets h).1) ↔
        ∃ s, s ∈ sets ∧ x ∈ deref h (m s)) ∧
  (m (Union tr sets h).1 = None ↔ ∀ s, s ∈ sets → deref h (m s) = ∅).
Proof.
  induction sets as [|s sets IH] using rev_ind; intros Hwf.
  - simpl. split_and!; [by apply frame_refl| |].
    + intros x. split; [set_solver|]. intros (s & Hs & _). set_solver.
    + split; [|done]. intros _ s Hs. set_solver.
  - apply Forall_app in Hwf as [Hsets Hs%Forall_inv].
    destruct (IH Hsets) as (Hfr & Hmem & Hnil). clear IH.
    rewrite Union_snoc.
    destruct (Union tr sets h) as [r h'] eqn:HU. simpl in *.
    assert (deref h' (m s) = deref h (m s)) as Hread.
    { eapply frame_deref; [exact Hfr|exact Hs|apply valid_cases]. }
    rewrite Hread.
    destruct (guarded_add_loop (λ '(r, h') x, Add r [x] h')
                (λ _ _, true) (λ _, true) r h' (tr (deref h (m s))))
      as (Hfr' & Hmem' & Hnil' & _); [done|apply Hfr|done|].
    split_and!.
    + eapply frame_trans; eauto.
    + intros x. rewrite Hmem', Hmem, elem_of_traversal. split.
      * intros [(u & Hu & Hx)|[Hx _]]; [exists u|exists s]; set_solver.
      * intros (u & [Hu|Hu%list_elem_of_singleton]%elem_of_app & Hx);
          [left; eauto|right; by subst].
    + rewrite Hnil', Hnil. split.
      * intros [Hall Hemp] u [Hu|Hu%list_elem_of_singleton]%elem_of_app;
          [by apply Hall|]. subst u. apply set_eq. intros x.
        specialize (Hemp x). rewrite elem_of_traversal in Hemp.
        split; [|set_solver]. intros Hx. by specialize (Hemp Hx).
      * intros Hall. split; [intros u Hu; apply Hall; set_solver|].
        intros x. rewrite elem_of_traversal, (Hall s); set_solver.
Qed.

Lemma Difference_spec tr s (others : list Set_) h :
  wf h s → Forall (wf h) others → others ≠ [] →
  frame None h (m (Difference tr s others h).1) (Difference tr s others h).2 ∧
  (∀ x, x ∈ deref (Difference tr s others h).2 (m (Difference tr s others h).1) ↔
        x ∈ deref h (m s) ∧ ∀ o, o ∈ others → x ∉ deref h (m o)).
Proof.
  intros Hs Hothers Hne. unfold Difference.
  rewrite bool_decide_eq_false_2 by (by destruct others).
  destruct (Union_spec tr others h Hothers) as (Hfr & Hmem & _).
  destruct (Union tr others h) as [o h1]. simpl in *.
  assert (deref h1 (m s) = deref h (m s)) as ->.
  { eapply frame_deref; [exact Hfr|exact Hs|apply valid_cases]. }
  destruct (guarded_add_loop
              (λ '(r, h') x, if negb (Contains h' o x) then Add r [x] h'
                             else (r, h'))
              (λ h' x, negb (Contains h' o x))
              (λ x, negb (bool_decide (x ∈ deref h1 (m o))))
              zero h1 (tr (deref h (m s))))
    as (Hfr' & Hmem' & _); [done|done| |].
  { intros r h' x Hframe. unfold Contains, map_has.
    rewrite (frame_deref _ _ _ _ (m o) Hframe);
      [done|apply Hfr|apply valid_cases]. }
  split; [by eapply frame_then_fresh|].
  intros x. rewrite Hmem', elem_of_traversal, negb_true_iff,
    bool_decide_eq_false, Hmem. simpl. set_solver.
Qed.

Lemma Intersection_spec tr s0 s1 (rest : list Set_) h :
  Forall (wf h) (s0 :: s1 :: rest) →
  frame None h (m (Intersection tr (s0 :: s1 :: rest) h).1)
        (Intersection tr (s0 :: s1 :: rest) h).2 ∧
  (∀ x, x ∈ deref (Intersection tr (s0 :: s1 :: rest) h).2
                  (m (Intersection tr (s0 :: s1 :: rest) h).1) ↔
        ∀ s, s ∈ s0 :: s1 :: rest → x ∈ deref h (m s)).
Proof.
  intros Hwf. unfold Intersection.
  rewrite bool_decide_eq_false_2 by (simpl; lia).
  apply Forall_cons in Hwf as [Hs0 Hrest].
  destruct (guarded_add_loop
              (λ '(r, h') x, if forallb (λ s, Contains h' s x) (s1 :: rest)
                             then Add r [x] h' else (r, h'))
              (λ h' x, forallb (λ s, Contains h' s x) (s1 :: rest))
              (λ x, forallb (λ s, Contains h s x) (s1 :: rest))
              zero h (tr (deref h (m s0))))
    as (Hfr' & Hmem' & _); [done|done| |].
  { intros r h' x Hframe. apply forallb_agree.
    intros s. unfold Contains, map_has. intros Hin.
    rewrite (frame_deref _ _ _ _ (m s) Hframe); [done| |apply valid_cases].
    rewrite Forall_forall in Hrest. apply Hrest. by apply list_elem_of_In. }
  split; [done|].
  intros x. rewrite Hmem', elem_of_traversal, forallb_forall.
  split.
  - intros [Hx|[Hx Hall]] s Hs; [by apply not_elem_of_empty in Hx|].
    apply elem_of_cons in Hs as [->|Hs]; [done|].
    apply Contains_true, Hall. by apply list_elem_of_In.
  - intros Hall. right. split; [apply Hall; set_solver|].
    intros s Hs. apply Contains_true, Hall. right. by apply list_elem_of_In.
Qed.

(** *** Results are allocated only when they get a key *)

Lemma Add_live r x h : live h r → live (Add r [x] h).2 (Add r [x] h).1.
Proof.
  unfold live, Add, make_map. destruct (m r) as [l|]; simpl.
  - intros (X & HX & _). exists ({[x]} ∪ X).
    unfold map_assign. rewrite lookup_alter_eq, HX. split; [done|set_solver].
  - intros _. exists ({[x]} ∪ ∅). unfold map_assign.
    rewrite lookup_alter_eq, lookup_insert_eq. split; [done|set_solver].
Qed.

Lemma guarded_add_live
    (f : Set_ * gmap loc (gset E) → E → Set_ * gmap loc (gset E))
    (c : gmap loc (gset E) → E → bool) (xs : list E) r h :
  (∀ r h x, f (r, h) x = if c h x then Add r [x] h else (r, h)) →
  live h r → live (foldl f (r, h) xs).2 (foldl f (r, h) xs).1.
Proof.
  intros Hf. revert r h. induction xs as [|x xs IH]; intros r h Hlive;
    simpl; [done|].
  rewrite Hf. destruct (c h x); [|by apply IH].
  pose proof (Add_live r x h Hlive) as Hlive'.
  destruct (Add r [x] h) as [r' h']. by apply IH.
Qed.

Lemma live_zero_iff h r : live h r → IsZero r = true ↔ Size h r = 0.
Proof.
  intros Hlive. split; [apply IsZero_Size|].
  rewrite Size_zero, IsZero_true. unfold live in Hlive.
  destruct (m r) as [l|]; [|done]. simpl.
  destruct Hlive as (X & -> & HX). done.
Qed.

Lemma Collect_live (seq : list E) h : live (Collect seq h).2 (Collect seq h).1.
Proof.
  unfold Collect.
  by apply (guarded_add_live (λ '(r, h') x, Add r [x] h') (λ _ _, true)).
Qed.

Lemma Union_live tr (sets : list Set_) h :
  live (Union tr sets h).2 (Union tr sets h).1.
Proof.
  induction sets as [|s sets IH] using rev_ind; [done|].
  rewrite Union_snoc. destruct (Union tr sets h) as [r h'].
  by apply (guarded_add_live (λ '(r, h') x, Add r [x] h') (λ _ _, true)).
Qed.

Lemma Intersection_live tr (sets : list Set_) h :
  live (Intersection tr sets h).2 (Intersection tr sets h).1.
Proof.
  unfold Intersection. case_bool_decide; [done|].
  destruct sets as [|s0 rest]; [done|].
  by apply (guarded_add_live
              (λ '(r, h') x, if forallb (λ s, Contains h' s x) rest
                             then Add r [x] h' else (r, h'))
              (λ h' x, forallb (λ s, Contains h' s x) rest)).
Qed.

(** ** Mutation stays within the receiver's storage *)

Lemma frame_alter l (f : gset E → gset E) h :
  l ∈ dom h → frame (Some l) h (Some l) (alter f l h).
Proof.
  intros Hl. split_and!.
  - simpl. by rewrite dom_alter_L.
  - by rewrite dom_alter_L.
  - intros l' _ Hne. split; [|done]. rewrite lookup_alter_ne; congruence.
Qed.

Lemma map_delete_frame p w h : valid h p → frame p h p (map_delete p w h).
Proof.
  destruct p as [l|]; simpl; [apply frame_alter|]. intros _.
  by apply frame_refl.
Qed.

Lemma map_clear_frame p h : valid h p → frame p h p (map_clear p h).
Proof.
  destruct p as [l|]; simpl; [apply frame_alter|]. intros _.
  by apply frame_refl.
Qed.

(** A loop whose every step stays within the storage of [p]. *)
Lemma foldl_frame {A} (f : gmap loc (gset E) → A → gmap loc (gset E)) p
    (bs : list A) h :
  (∀ h' b, valid h' p → frame p h' p (f h' b)) →
  valid h p → frame p h p (foldl f h bs).
Proof.
  intros Hf. revert h. induction bs as [|b bs IH]; intros h Hv; simpl.
  - by apply frame_refl.
  - eapply frame_trans; [by apply Hf|]. apply IH. by apply (Hf h b).
Qed.

Lemma map_clear_deref p h : valid h p → deref (map_clear p h) p = ∅.
Proof.
  destruct p as [l|]; simpl; [|done]. intros [X HX]%elem_of_dom.
  by rewrite lookup_alter_eq, HX.
Qed.

Lemma UnmarshalJSON_frame dec t (b : string) h :
  wf h t →
  frame (m t) h (m (UnmarshalJSON dec t b h).1.2) (UnmarshalJSON dec t b h).2.
Proof.
  intros Hwf. unfold UnmarshalJSON.
  destruct (dec b) as [err|[i|]]; simpl.
  - by apply frame_refl.
  - pose proof (map_clear_frame (m t) h Hwf) as Hclear.
    assert (wf (Clear t h) t) as Hwf' by apply Hclear.
    destruct (Add_spec t i (Clear t h) Hwf') as (_ & _ & _ & Hadd).
    destruct (Add t i (Clear t h)) as [t' h']. simpl in *.
    eapply frame_trans; eauto.
  - split_and!; [done|done|]. intros l _ _. done.
Qed.

Lemma mutate_frame op c h :
  wf h c → frame (m c) h (m (mutate op c h).1) (mutate op c h).2.
Proof.
  intros Hwf. destruct op as [v|seq| |v|tr del|seq|tr z|dec b]; simpl.
  - by apply Add_spec.
  - unfold AddSeq.
    by apply (guarded_add_loop (λ '(r, h') x, Add r [x] h')
                (λ _ _, true) (λ _, true)).
  - by apply map_clear_frame.
  - apply (foldl_frame (λ h' w, map_delete (m c) w h')); [|done].
    intros h' w. apply map_delete_frame.
  - destruct del as [del|]; simpl; [|by apply frame_refl].
    apply (foldl_frame (λ h' x, if del x then map_delete (m c) x h' else h'));
      [|done].
    intros h' x Hv. destruct (del x); [by apply map_delete_frame|].
    by apply frame_refl.
  - unfold DeleteSeq.
    assert (∀ n h', valid h' (m c) →
      frame (m c) h' (m c)
        (foldl (λ '(k, h'') x,
                  if map_has h'' (m c) x
                  then (k + 1, map_delete (m c) x h'') else (k, h''))
               (n, h') seq).2) as Hloop; [|by apply Hloop].
    induction seq as [|x seq IH]; intros n h' Hv; simpl.
    + by apply frame_refl.
    + destruct (map_has h' (m c) x).
      * eapply frame_trans; [by apply (map_delete_frame _ x)|].
        apply IH. by apply (map_delete_frame _ x h').
      * by apply IH.
  - unfold Pop. case_bool_decide; simpl; [by apply frame_refl|].
    by apply map_delete_frame.
  - pose proof (UnmarshalJSON_frame dec c b h Hwf) as Hfr.
    by destruct (UnmarshalJSON dec c b h) as [[? ?] ?].
Qed.

Lemma mutate_all_frame (ops : list mutation) c h :
  wf h c → frame (m c) h (m (mutate_all ops c h).1) (mutate_all ops c h).2.
Proof.
  unfold mutate_all. revert c h.
  induction ops as [|op ops IH]; intros c h Hwf; simpl.
  - by apply frame_refl.
  - pose proof (mutate_frame op c h Hwf) as Hop.
    destruct (mutate op c h) as [c' h']. simpl in *.
    eapply frame_trans; [done|]. apply IH. apply Hop.
Qed.

Lemma Clone_spec s h :
  wf h s →
  frame None h (m (Clone s h).1) (Clone s h).2 ∧
  deref (Clone s h).2 (m (Clone s h).1) = deref h (m s) ∧
  (m (Clone s h).1 = None ↔ m s = None).
Proof.
  unfold wf, Clone, maps_Clone. destruct (m s) as [l|]; simpl; intros Hv.
  - pose proof (is_fresh (dom h)) as Hfresh.
    set (l' := fresh (dom h)) in *. split_and!; [|by rewrite lookup_insert_eq|done].
    split_and!.
    + simpl. rewrite dom_insert_L. set_solver.
    + rewrite dom_insert_L. set_solver.
    + intros k Hk _. assert (l' ≠ k) by (by intros ->).
      rewrite lookup_insert_ne by done. split; [done|congruence].
  - split_and!; [by apply frame_refl|done|done].
Qed.

(** ** Extremal values *)

(** The selection loop [for x := range ... { if x beats m { m = x } }]: the
    value kept at the end is the start value or one of those visited, and
    none of the visited values beats it. *)
Lemma select_loop (beats : E → E → bool) m0 (xs : list E) :
  (∀ a, beats a a = false) →
  (∀ a b c, beats a b = false → beats c b = true → beats a c = false) →
  (foldl (λ b a, if beats a b then a else b) m0 xs = m0 ∨
   foldl (λ b a, if beats a b then a else b) m0 xs ∈ xs) ∧
  ∀ y, y ∈ xs → beats y (foldl (λ b a, if beats a b then a else b) m0 xs) = false.
Proof.
  intros Hirr Hstep. induction xs as [|x xs IH] using rev_ind.
  - simpl. split; [by left|]. intros y Hy. set_solver.
  - rewrite foldl_app. simpl.
    set (best := foldl (λ b a, if beats a b then a else b) m0 xs) in *.
    destruct IH as [Hin Hbest].
    destruct (beats x best) eqn:Hx.
    + split; [right; set_solver|].
      intros y [Hy|Hy%list_elem_of_singleton]%elem_of_app.
      * eapply Hstep; [by apply Hbest|done].
      * subst y. apply Hirr.
    + split; [destruct Hin; [by left|right; set_solver]|].
      intros y [Hy|Hy%list_elem_of_singleton]%elem_of_app;
        [by apply Hbest|by subst y].
Qed.

Lemma first_of_member zeroE tr h s :
  Size h s ≠ 0 → first_of zeroE tr h s ∈ deref h (m s).
Proof.
  rewrite Size_zero. unfold first_of, All. intros Hne.
  destruct (tr (deref h (m s))) as [|x xs] eqn:Hxs.
  - by apply traversal_nil in Hxs.
  - simpl. apply (elem_of_traversal tr). rewrite Hxs. set_solver.
Qed.

Lemma Size_lt_1 h s : Size h s < 1 ↔ Size h s = 0.
Proof. pose proof (Size_nonneg h s). lia. Qed.

(** The shape shared by [Max], [Min], [MaxFunc] and [MinFunc]. *)
Lemma extremal_shape (beats : E → E → bool) zeroE tr1 tr2 h s (msg : string)
    (o : outcome E) :
  (∀ a, beats a a = false) →
  (∀ a b c, beats a b = false → beats c b = true → beats a c = false) →
  o = (if bool_decide (Size h s < 1) then Panics msg
       else Returns (foldl (λ b a, if beats a b then a else b)
                           (first_of zeroE tr1 h s) (All tr2 h s))) →
  (panics o ↔ Size h s = 0) ∧
  (Size h s ≠ 0 → returns_unbeaten (λ y x, beats y x = true) h s o).
Proof.
  intros Hirr Hstep ->. case_bool_decide as Hsz; rewrite Size_lt_1 in Hsz.
  - split; [done|]. intros Hne. done.
  - split; [simpl; done|]. intros _.
    destruct (select_loop beats (first_of zeroE tr1 h s) (All tr2 h s)
                Hirr Hstep) as [Hin Hbest].
    eexists. split; [done|]. split.
    + apply Contains_true. destruct Hin as [->|Hin].
      * by apply first_of_member.
      * by apply (elem_of_traversal tr2).
    + intros y Hy%Contains_true. rewrite Hbest; [done|].
      by apply (elem_of_traversal tr2).
Qed.



(** * The claims *)

(** C1 (amended).  [Add] allocates the backing map whenever the receiver is
    a zero set, also when it is called with no values: a just-declared set
    reports [IsZero() == true], and after [s.Add()] with no arguments it
    reports [IsZero() == false], as after any other [Add] call.  Adding no
    values changes no membership and not the size. *)
Theorem Add_no_values_allocates s v h :
  IsZero zero = true ∧
  IsZero (Add zero [] h).1 = false ∧
  IsZero (Add s v h).1 = false ∧
  (∀ x, Contains (Add s [] h).2 (Add s [] h).1 x = Contains h s x) ∧
  Size (Add s [] h).2 (Add s [] h).1 = Size h s.
Proof.
  split_and!; [done|apply Add_allocates|apply Add_allocates| |].
  - intros x. unfold Contains, map_has, Add, make_map.
    destruct (m s) as [l|]; simpl; [done|]. by rewrite lookup_insert_eq.
  - unfold Size, len, Add, make_map.
    destruct (m s) as [l|]; simpl; [done|]. by rewrite lookup_insert_eq.
Qed.

(** C2 (amended).  When [json.Unmarshal] reports a decode error for the
    input, [UnmarshalJSON] hands that error to the caller and returns before
    it clears anything: the target set and the heap are exactly as they
    were, so the prior contents are kept. *)
Theorem UnmarshalJSON_error_keeps_set
    (json_Unmarshal : string → error + option (list E)) s (b : string) h err :
  json_Unmarshal b = inl err →
  UnmarshalJSON json_Unmarshal s b h = (Some err, s, h).
Proof. intros Herr. unfold UnmarshalJSON. by rewrite Herr. Qed.

(** C3 (amended).  [Collect] of an empty sequence returns a zero set, and
    [Union] and [Intersection] do the same whenever their result is empty:
    each starts from a zero set and allocates only when it adds a value, so
    its result is a zero set exactly when it has no elements. *)
Theorem empty_results_are_zero tr (sets : list Set_) h :
  IsZero (Collect [] h).1 = true ∧
  (IsZero (Union tr sets h).1 = true ↔
   Size (Union tr sets h).2 (Union tr sets h).1 = 0) ∧
  (IsZero (Intersection tr sets h).1 = true ↔
   Size (Intersection tr sets h).2 (Intersection tr sets h).1 = 0).
Proof.
  split_and!; [done| |].
  - apply live_zero_iff, Union_live.
  - apply live_zero_iff, Intersection_live.
Qed.

Lemma UnmarshalJSON_array dec t (b : string) (i : list E) h :
  wf h t → dec b = inr (Some i) →
  (UnmarshalJSON dec t b h).1.1 = None ∧
  m (UnmarshalJSON dec t b h).1.2 ≠ None ∧
  deref (UnmarshalJSON dec t b h).2 (m (UnmarshalJSON dec t b h).1.2)
    = list_to_set i ∧
  (m t ≠ None → m (UnmarshalJSON dec t b h).1.2 = m t).
Proof.
  intros Hwf Hdec. unfold UnmarshalJSON. rewrite Hdec.
  pose proof (map_clear_frame (m t) h Hwf) as Hclear.
  assert (wf (Clear t h) t) as Hwf' by apply Hclear.
  destruct (Add_spec t i (Clear t h) Hwf') as (Hne & Hder & Hsame & _).
  destruct (Add t i (Clear t h)) as [t' h']. simpl in *.
  split_and!; [done|done| |done]. rewrite Hder. unfold Clear.
  rewrite map_clear_deref by done. set_solver.
Qed.

(** Decoding what [MarshalJSON] produced for [s], given a decoder that
    inverts the encoder on the slice of the elements of [s]. *)
Lemma UnmarshalJSON_of_MarshalJSON
    (json_Marshal : list E → error + string)
    (json_Unmarshal : string → error + option (list E))
    tr tr' h s t (b : string) :
  wf h s → wf h t →
  json_Unmarshal "null" = inr None →
  (∀ b', json_Marshal (All tr h s) = inr b' →
         json_Unmarshal b' = inr (Some (All tr h s))) →
  MarshalJSON json_Marshal tr h s = inr b →
  (UnmarshalJSON json_Unmarshal t b h).1.1 = None ∧
  Equal tr' (UnmarshalJSON json_Unmarshal t b h).2
        (UnmarshalJSON json_Unmarshal t b h).1.2 s = true ∧
  IsZero (UnmarshalJSON json_Unmarshal t b h).1.2 = IsZero s.
Proof.
  intros Hs Ht Hnull Hcodec Hb. unfold MarshalJSON in Hb.
  destruct (m s) as [l|] eqn:Hms.
  - rewrite foldl_snoc in Hb. simpl in Hb. apply Hcodec in Hb.
    destruct (UnmarshalJSON_array json_Unmarshal t b _ h Ht Hb)
      as (Herr & Hne & Hder & Hsame).
    pose proof (UnmarshalJSON_frame json_Unmarshal t b h Ht) as Hfr.
    destruct (UnmarshalJSON json_Unmarshal t b h) as [[e t'] h'].
    simpl in *. split_and!; [done| |].
    + apply Equal_true. unfold All in Hder.
      rewrite list_to_set_traversal in Hder. rewrite Hder.
      destruct (decide (m t' = m s)) as [Heq|Hneq].
      * by rewrite <- Heq at 2.
      * destruct (decide (m t = m s)) as [Hts|Hts].
        -- exfalso. apply Hneq. rewrite Hsame; [done|].
           by rewrite Hts, Hms.
        -- symmetry. apply (frame_deref _ _ _ _ (m s) Hfr); [done|].
           left. congruence.
    + unfold IsZero. rewrite Hms.
      rewrite !bool_decide_eq_false_2; done.
  - injection Hb as <-. unfold UnmarshalJSON. rewrite Hnull. simpl.
    split_and!; [done| |].
    + apply Equal_true. simpl. by rewrite Hms.
    + unfold IsZero. simpl. by rewrite Hms.
Qed.



(** C6.  With two or more sets, [Intersection] holds exactly the elements
    that every one of them contains; with fewer than two it returns the
    zero set, whatever a single argument contains. *)
Theorem Intersection_common_or_zero tr (sets : list Set_) h :
  Forall (wf h) sets →
  ((2 ≤ length sets)%nat →
   ∀ x, Contains (Intersection tr sets h).2 (Intersection tr sets h).1 x = true
        ↔ ∀ s, s ∈ sets → Contains h s x = true) ∧
  ((length sets < 2)%nat → Intersection tr sets h = (zero, h)).
Proof.
  intros Hwf. split.
  - intros Hlen x. destruct sets as [|s0 [|s1 rest]]; simpl in Hlen; [lia..|].
    destruct (Intersection_spec tr s0 s1 rest h Hwf) as [_ Hmem].
    rewrite Contains_true, Hmem. by setoid_rewrite Contains_true.
  - intros Hlen. unfold Intersection. by rewrite bool_decide_eq_true_2.
Qed.




(** C9.  [Of()] with no values returns an allocated empty set:
    [IsZero() == false], [Size() == 0], and it renders as [{}]. *)
Theorem Of_no_values_allocated_empty (Sprint : E → string) tr h :
  IsZero (Of [] h).1 = false ∧
  Size (Of [] h).2 (Of [] h).1 = 0 ∧
  String_ Sprint tr (Of [] h).2 (Of [] h).1 = "{}"%string.
Proof.
  assert (deref (Of [] h).2 (m (Of [] h).1) = ∅) as Hempty.
  { unfold Of, Add, make_map. simpl. by rewrite lookup_insert_eq. }
  split_and!.
  - apply Add_allocates.
  - by apply Size_zero.
  - unfold String_, All. rewrite Hempty.
    by rewrite (proj2 (traversal_nil tr ∅)).
Qed.


End goset_facts.



(** * The decoder and encoder at [[]int] *)

Module IntJSONFacts.
Import IntJSON.

Lemma scan_app (st : state) (a b : string) :
  scan st (a +:+ b) = scan (scan st a) b.
Proof. revert st. induction a as [|c a IH]; intros st; simpl; [done|apply IH]. Qed.

Lemma scan_Failed (b : string) : scan Failed b = Failed.
Proof. induction b as [|c b IH]; simpl; done. Qed.

(** Leading white space is skipped. *)
Lemma scan_leading_space (ws b : string) :
  all_space ws = true → scan Start (ws +:+ b) = scan Start b.
Proof.
  induction ws as [|c ws IH]; simpl; [done|].
  intros [Hc Hws]%andb_true_iff. rewrite Hc. by apply IH.
Qed.

(** A value that starts with a byte other than [n] and [[] is not [null]
    and not an array, and is refused: objects, strings, numbers, [true],
    [false] and stray bytes. *)
Lemma json_Unmarshal_rejects (ws : string) (c : ascii) (rest : string) :
  all_space ws = true → is_space c = false →
  c ≠ "n"%char → c ≠ "["%char →
  json_Unmarshal (ws +:+ String c rest) = inl DecodeError.
Proof.
  intros Hws Hc Hn Hb. unfold json_Unmarshal.
  rewrite scan_leading_space by done. simpl. rewrite Hc.
  assert (match c with
          | "n"%char => TopNull 1
          | "["%char => ArrOpen
          | _ => Failed
          end = Failed) as ->.
  { destruct c as [[] [] [] [] [] [] [] []]; try done. }
  by rewrite scan_Failed.
Qed.

Lemma json_Unmarshal_empty : json_Unmarshal "" = inl DecodeError.
Proof. reflexivity. Qed.

(** *** Decoding what was encoded *)

Lemma to_uint_head p l : Pos.to_uint p ≠ Decimal.D0 l.
Proof.
  intros Hp.
  pose proof (DecimalPos.Unsigned.to_of (Pos.to_uint p)) as Hnorm.
  rewrite DecimalPos.Unsigned.of_to in Hnorm. simpl in Hnorm.
  rewrite Hp in Hnorm. unfold Decimal.unorm in Hnorm.
  destruct (Decimal.nzhead (Decimal.D0 l)) eqn:Hhead; try discriminate Hnorm.
  - apply (DecimalPos.Unsigned.to_uint_nonzero p). by rewrite Hp.
  - by apply DecimalFacts.nzhead_nonzero in Hhead.
Qed.

Lemma scan_digits neg (acc : list Z) (l : Decimal.uint) (n : Z) (q : positive) :
  n = Z.pos q →
  scan (ElemDigits neg n acc) (NilEmpty.string_of_uint l)
  = ElemDigits neg (Z.pos (Pos.of_uint_acc l q)) acc.
Proof.
  revert n q. induction l as [|l IH|l IH|l IH|l IH|l IH|l IH|l IH|l IH|l IH|l IH];
    intros n q ->; simpl; [done|..]; apply IH; lia.
Qed.

Lemma scan_unsigned neg (acc : list Z) (st : state) p :
  (∀ c d, digit_of c = Some d → d ≠ 0 → step st c = ElemDigits neg d acc) →
  scan st (NilEmpty.string_of_uint (Pos.to_uint p))
  = ElemDigits neg (Z.pos p) acc.
Proof.
  intros Hst.
  pose proof (DecimalPos.Unsigned.of_to p) as Hval.
  destruct (Pos.to_uint p) as [|l|l|l|l|l|l|l|l|l|l] eqn:Hu;
    [exfalso; by apply (DecimalPos.Unsigned.to_uint_nonnil p)
    |exfalso; by apply (to_uint_head p l)|..];
    simpl in *; injection Hval as <-;
    (erewrite Hst; [|reflexivity|done]); by apply scan_digits.
Qed.

(** A non-zero digit starts a number, and is neither white space nor a
    bracket. *)
Lemma first_digit (acc : list Z) (c : ascii) (d : Z) :
  digit_of c = Some d → d ≠ 0 →
  begin_element acc c = ElemDigits false d acc ∧
  step (ElemSign acc) c = ElemDigits true d acc ∧
  is_space c = false ∧ c ≠ "]"%char.
Proof.
  intros Hc Hd.
  destruct c as [[] [] [] [] [] [] [] []]; vm_compute in Hc;
    try discriminate Hc; injection Hc as <-; done.
Qed.

Lemma NilZero_unsigned p :
  NilZero.string_of_uint (Pos.to_uint p)
  = NilEmpty.string_of_uint (Pos.to_uint p).
Proof.
  unfold NilZero.string_of_uint.
  destruct (Pos.to_uint p) eqn:Hu; [|done..].
  exfalso. by apply (DecimalPos.Unsigned.to_uint_nonnil p).
Qed.

Lemma scan_itoa (st : state) (acc : list Z) (x : Z) :
  awaits_element st acc → scan st (itoa x) = element_read x acc.
Proof.
  intros Hst. unfold itoa. destruct x as [|p|p]; simpl.
  - by rewrite Hst.
  - rewrite NilZero_unsigned. apply scan_unsigned. intros c d Hc Hd.
    destruct (first_digit acc c d Hc Hd) as (Hbegin & _ & Hsp & Hbr).
    by rewrite Hst.
  - rewrite Hst by done. rewrite NilZero_unsigned.
    change (begin_element acc "-") with (ElemSign acc).
    apply scan_unsigned. intros c d Hc Hd.
    by destruct (first_digit acc c d Hc Hd) as (_ & Hsign & _ & _).
Qed.

Lemma step_element_read (x : Z) (acc : list Z) (c : ascii) :
  in_range x = true → digit_of c = None →
  step (element_read x acc) c = after_element (acc ++ [x]) c.
Proof.
  intros Hx Hc. destruct x as [|p|p]; [done|..];
    unfold element_read, step; rewrite Hc; unfold close_number.
  - by rewrite Hx.
  - change (- Z.pos p) with (Z.neg p). by rewrite Hx.
Qed.

Lemma awaits_ArrOpen : awaits_element ArrOpen [].
Proof.
  intros c Hc Hclose. simpl. rewrite Hc.
  by destruct c as [[] [] [] [] [] [] [] []].
Qed.

Lemma awaits_AfterComma (acc : list Z) : awaits_element (AfterComma acc) acc.
Proof. intros c Hc _. simpl. by rewrite Hc. Qed.

Lemma scan_elements (v : list Z) (x : Z) (acc : list Z) (st : state) :
  awaits_element st acc →
  Forall (λ y, in_range y = true) (x :: v) →
  scan st (String.concat "," (itoa <$> x :: v) +:+ "]")
  = Finished (Some (acc ++ x :: v)).
Proof.
  revert x acc st. induction v as [|y v IH]; intros x acc st Hst Hrange.
  - simpl. rewrite scan_app, (scan_itoa st acc) by done. simpl.
    rewrite step_element_read; [done| |done]. by apply Forall_inv in Hrange.
  - set (tail := String.concat "," (itoa <$> y :: v)).
    change (String.concat "," (itoa <$> x :: y :: v))
      with (itoa x +:+ "," +:+ tail).
    rewrite scan_app, (scan_app st (itoa x)), (scan_itoa st acc) by done.
    change (scan (element_read x acc) ("," +:+ tail))
      with (scan (step (element_read x acc) ",") tail).
    apply Forall_cons in Hrange as [Hx Hrange].
    rewrite step_element_read by done.
    change (after_element (acc ++ [x]) ",") with (AfterComma (acc ++ [x])).
    rewrite <- scan_app. unfold tail.
    rewrite (IH y (acc ++ [x]) (AfterComma (acc ++ [x])));
      [by rewrite <- app_assoc|apply awaits_AfterComma|done].
Qed.

(** For slices of [int]s, [json.Unmarshal] returns the slice that
    [json.Marshal] was given. *)
Lemma json_Unmarshal_Marshal (v : list Z) (b : string) :
  Forall (λ y, in_range y = true) v →
  json_Marshal v = inr b → json_Unmarshal b = inr (Some v).
Proof.
  intros Hrange [= <-]. unfold json_Unmarshal.
  destruct v as [|x v]; [done|].
  change (scan Start ("[" +:+ String.concat "," (itoa <$> x :: v) +:+ "]"))
    with (scan ArrOpen (String.concat "," (itoa <$> x :: v) +:+ "]")).
  by rewrite (scan_elements v x [] ArrOpen awaits_ArrOpen Hrange).
Qed.

End IntJSONFacts.

(** * [Set[int]] and JSON *)

Section int_sets.
Implicit Types (h : gmap loc (gset Z)) (s t : Set_) (tr : Traversal (E:=Z)).

(** Every [Set[int]] whose elements are 64-bit integers survives the round
    trip through its JSON text, with no assumption on the codec. *)
Lemma Set_int_roundtrip tr tr' h s t :
  wf h s → wf h t →
  (∀ x, Contains h s x = true → IntJSON.in_range x = true) →
  ∃ b, MarshalJSON IntJSON.json_Marshal tr h s = inr b ∧
       (UnmarshalJSON IntJSON.json_Unmarshal t b h).1.1 = None ∧
       Equal tr' (UnmarshalJSON IntJSON.json_Unmarshal t b h).2
             (UnmarshalJSON IntJSON.json_Unmarshal t b h).1.2 s = true ∧
       IsZero (UnmarshalJSON IntJSON.json_Unmarshal t b h).1.2 = IsZero s.
Proof.
  intros Hs Ht Hrange.
  destruct (MarshalJSON IntJSON.json_Marshal tr h s) as [e|b] eqn:Hb.
  { unfold MarshalJSON in Hb. by destruct (m s). }
  exists b. split; [done|].
  apply (UnmarshalJSON_of_MarshalJSON IntJSON.json_Marshal
           IntJSON.json_Unmarshal tr tr' h s t b); [done|done|done| |done].
  intros b'. apply IntJSONFacts.json_Unmarshal_Marshal.
  apply Forall_forall. intros x Hx. apply Hrange, Contains_true.
  by apply (elem_of_traversal tr).
Qed.

(** Text whose first byte after white space is neither [n] nor [[] (an
    object, a string, a number, [true], [false]) is refused, and the set is
    as before. *)
Lemma UnmarshalJSON_int_rejects (ws : string) (c : ascii) (rest : string) s h :
  IntJSON.all_space ws = true → IntJSON.is_space c = false →
  c ≠ "n"%char → c ≠ "["%char →
  UnmarshalJSON IntJSON.json_Unmarshal s (ws +:+ String c rest) h
  = (Some DecodeError, s, h).
Proof.
  intros Hws Hc Hn Hb. unfold UnmarshalJSON.
  by rewrite IntJSONFacts.json_Unmarshal_rejects.
Qed.

End int_sets.

Section instances.
Import Examples.
Abbreviation heapZ := (gmap loc (gset Z)).

Lemma a_set_wf : wf ab_heap a_set.
Proof.
  change (1%positive ∈ dom ab_heap). compute_done.
Qed.

Lemma b_set_wf : wf ab_heap b_set.
Proof.
  change (2%positive ∈ dom ab_heap). compute_done.
Qed.

Lemma Z_ltb_strict_order : strict_order Z.ltb.
Proof.
  split.
  - intros a. apply Z.ltb_irrefl.
  - intros a b c Hab%Z.ltb_lt Hbc%Z.ltb_lt. apply Z.ltb_lt. lia.
Qed.

Lemma Z_ltb_total (a b : Z) : (a <? b) = true ∨ a = b ∨ (b <? a) = true.
Proof. rewrite !Z.ltb_lt. lia. Qed.

Lemma int_Compare_three_way : three_way int_Compare.
Proof.
  unfold int_Compare. split.
  - intros a b. rewrite (Z.compare_antisym a b).
    by destruct (a ?= b).
  - intros a b c.
    destruct (Z.compare_spec a b), (Z.compare_spec b c), (Z.compare_spec a c);
      lia.
Qed.

(** C1, counterexample: after [s.Add()] on a just-declared set, [IsZero] is
    no longer true. *)
Lemma Add_no_values_keeps_zero_counterexample :
  IsZero (zero : Set_) = true ∧
  ¬ (IsZero (Add zero [] (∅ : heapZ)).1 = true).
Proof. split; [reflexivity|]. vm_compute. discriminate. Qed.

(** C2, counterexample: decoding the object [{}] into the set [{1 2 3 4}]
    fails, and the set still has its four elements. *)
Lemma UnmarshalJSON_error_clears_counterexample :
  (UnmarshalJSON IntJSON.json_Unmarshal a_set "{}" ab_heap).1.1
    = Some DecodeError ∧
  ¬ (Size (UnmarshalJSON IntJSON.json_Unmarshal a_set "{}" ab_heap).2
          (UnmarshalJSON IntJSON.json_Unmarshal a_set "{}" ab_heap).1.2 = 0) ∧
  Contains (UnmarshalJSON IntJSON.json_Unmarshal a_set "{}" ab_heap).2
           (UnmarshalJSON IntJSON.json_Unmarshal a_set "{}" ab_heap).1.2 1
    = true.
Proof. split_and!; [reflexivity| |reflexivity]. vm_compute. discriminate. Qed.

Lemma UnmarshalJSON_error_keeps_set_witness :
  IntJSON.json_Unmarshal "{}" = inl DecodeError ∧
  UnmarshalJSON IntJSON.json_Unmarshal a_set "{}" ab_heap
    = (Some DecodeError, a_set, ab_heap).
Proof.
  split; [reflexivity|].
  apply (UnmarshalJSON_error_keeps_set (E:=Z)). reflexivity.
Defined.

(** C3, counterexample: the empty results of [Union()] and of the
    intersection of the disjoint sets [{1}] and [{2}] are zero sets. *)
Lemma empty_results_allocated_counterexample :
  Size (Union elements_order [] (∅ : heapZ)).2
       (Union elements_order [] (∅ : heapZ)).1 = 0 ∧
  ¬ (IsZero (Union elements_order [] (∅ : heapZ)).1 = false) ∧
  Size (Intersection elements_order
          [(Of [1] (∅ : heapZ)).1; (Of [2] (Of [1] ∅).2).1]
          (Of [2] (Of [1] ∅).2).2).2
       (Intersection elements_order
          [(Of [1] (∅ : heapZ)).1; (Of [2] (Of [1] ∅).2).1]
          (Of [2] (Of [1] ∅).2).2).1 = 0 ∧
  ¬ (IsZero (Intersection elements_order
               [(Of [1] (∅ : heapZ)).1; (Of [2] (Of [1] ∅).2).1]
               (Of [2] (Of [1] ∅).2).2).1 = false).
Proof.
  split_and!; [reflexivity| |reflexivity|]; vm_compute; discriminate.
Qed.


(** C6 at [Intersection({1 2 3 4}, {3 4 5 6})] and at one argument. *)
Lemma Intersection_common_or_zero_witness :
  (∀ x, Contains (Intersection elements_order [a_set; b_set] ab_heap).2
                 (Intersection elements_order [a_set; b_set] ab_heap).1 x
          = true ↔
        ∀ s, s ∈ [a_set; b_set] → Contains ab_heap s x = true) ∧
  Intersection elements_order [a_set] ab_heap = (zero, ab_heap).
Proof.
  split.
  - apply (Intersection_common_or_zero elements_order [a_set; b_set] ab_heap).
    + apply Forall_cons_2; [exact a_set_wf|].
      apply Forall_cons_2; [exact b_set_wf|]. apply Forall_nil_2.
    + simpl. lia.
  - apply (Intersection_common_or_zero elements_order [a_set] ab_heap).
    + apply Forall_cons_2; [exact a_set_wf|]. apply Forall_nil_2.
    + simpl. lia.
Defined.



End instances.

(** * Further properties of the package *)

Section goset_more.
Context `{Countable E}.
Implicit Types (h : gmap loc (gset E)) (s u t r : Set_) (p : option loc).
Implicit Types (l : loc) (v : list E) (w x y : E) (tr : Traversal (E:=E)).

Lemma size_list_to_set_dups v :
  size (list_to_set v : gset E) = length (remove_dups v).
Proof.
  rewrite <- (size_list_to_set (C:=gset E) (remove_dups v))
    by apply NoDup_remove_dups.
  f_equal. apply set_eq. intros x.
  by rewrite !elem_of_list_to_set, elem_of_remove_dups.
Qed.

Lemma Contains_deref h h' s u :
  deref h' (m u) = deref h (m s) → ∀ x, Contains h' u x = Contains h s x.
Proof. intros Heq x. unfold Contains, map_has. by rewrite Heq. Qed.

Lemma Size_deref h h' s u :
  deref h' (m u) = deref h (m s) → Size h' u = Size h s.
Proof. intros Heq. unfold Size, len. by rewrite Heq. Qed.

(** A set that does not share the storage of the receiver reads the same
    after a computation that stays within the receiver's storage. *)
Lemma frame_Contains p h p' h' u :
  frame p h p' h' → wf h u → m u ≠ p ∨ m u = None →
  ∀ x, Contains h' u x = Contains h u x.
Proof.
  intros Hfr Hu Hne. apply Contains_deref.
  by apply (frame_deref _ _ _ _ (m u) Hfr).
Qed.

(** With key sets.
    [Of(v...)] returns an allocated set whose members are exactly the
    values of [v] and whose size is the number of distinct values in [v]; no
    set that existed before is changed. *)
Lemma Of_elements v h :
  IsZero (Of v h).1 = false ∧
  (∀ x, Contains (Of v h).2 (Of v h).1 x = true ↔ x ∈ v) ∧
  Size (Of v h).2 (Of v h).1 = Z.of_nat (length (remove_dups v)) ∧
  (∀ u, wf h u → ∀ x, Contains (Of v h).2 u x = Contains h u x).
Proof.
  unfold Of. destruct (Add_spec zero v h I) as (_ & Hder & _ & Hfr).
  change (deref h (m zero)) with (∅ : gset E) in Hder.
  split_and!.
  - apply Add_allocates.
  - intros x. rewrite Contains_true, Hder. set_solver.
  - unfold Size, len. rewrite Hder, union_empty_l_L.
    by rewrite size_list_to_set_dups.
  - intros u Hu. apply (frame_Contains _ _ _ _ u Hfr Hu), valid_cases.
Qed.

(** With key sets.
    After [s.Add(v...)] the members of [s] are the old members and the
    values of [v].  An allocated receiver keeps its storage, every set that
    does not share it is unchanged, and adding the same values again
    changes neither the members nor the size. *)
Lemma Add_elements s v h :
  wf h s →
  (∀ x, Contains (Add s v h).2 (Add s v h).1 x = true ↔
        Contains h s x = true ∨ x ∈ v) ∧
  (IsZero s = false → (Add s v h).1 = s) ∧
  (∀ u, wf h u → m u ≠ m s → ∀ x, Contains (Add s v h).2 u x = Contains h u x) ∧
  (∀ x, Contains (Add (Add s v h).1 v (Add s v h).2).2
                 (Add (Add s v h).1 v (Add s v h).2).1 x
        = Contains (Add s v h).2 (Add s v h).1 x) ∧
  Size (Add (Add s v h).1 v (Add s v h).2).2
       (Add (Add s v h).1 v (Add s v h).2).1
  = Size (Add s v h).2 (Add s v h).1.
Proof.
  intros Hs. destruct (Add_spec s v h Hs) as (Hne & Hder & Hsame & Hfr).
  assert (wf (Add s v h).2 (Add s v h).1) as Hs' by apply Hfr.
  destruct (Add_spec _ v _ Hs') as (_ & Hder' & _ & _).
  assert (deref (Add (Add s v h).1 v (Add s v h).2).2
                (m (Add (Add s v h).1 v (Add s v h).2).1)
          = deref (Add s v h).2 (m (Add s v h).1)) as Hidem.
  { rewrite Hder', Hder. set_solver. }
  split_and!.
  - intros x. rewrite !Contains_true, Hder. set_solver.
  - intros Hz%IsZero_false. specialize (Hsame Hz).
    destruct (Add s v h) as [[p'] h']. destruct s as [p]. simpl in *.
    by rewrite Hsame.
  - intros u Hu Hne'. apply (frame_Contains _ _ _ _ u Hfr Hu). by left.
  - by apply Contains_deref.
  - by apply Size_deref.
Qed.


(** X4.  [Clear] empties the receiver in place: its size is 0 afterwards,
    its storage is kept (a zero set stays zero and the heap is untouched,
    an allocated set stays allocated), and every set that does not share
    the storage is unchanged. *)
Theorem Clear_empties s h :
  wf h s →
  Size (Clear s h) s = 0 ∧
  (∀ x, Contains (Clear s h) s x = false) ∧
  wf (Clear s h) s ∧
  (IsZero s = true → Clear s h = h) ∧
  (∀ u, wf h u → m u ≠ m s → ∀ x, Contains (Clear s h) u x = Contains h u x).
Proof.
  intros Hs. pose proof (map_clear_frame (m s) h Hs) as Hfr.
  pose proof (map_clear_deref (m s) h Hs) as Hempty.
  split_and!.
  - by apply Size_zero.
  - intros x. apply Contains_false. unfold Clear. rewrite Hempty. set_solver.
  - apply Hfr.
  - intros Hz%IsZero_true. unfold Clear. by rewrite Hz.
  - intros u Hu Hne. apply (frame_Contains _ _ _ _ u Hfr Hu). by left.
Qed.

(** ** Removing elements *)

Lemma delete_all p v h :
  foldl (λ h' w, map_delete p w h') h v
  = match p with
    | None => h
    | Some l => alter (λ X, X ∖ list_to_set v) l h
    end.
Proof.
  destruct p as [l|]; simpl.
  - revert h. induction v as [|w v IH]; intros h; simpl.
    + apply map_eq. intros i.
      destruct (decide (l = i)) as [->|Hne]; [|by rewrite lookup_alter_ne].
      rewrite lookup_alter_eq.
      destruct (h !! i) as [X|]; simpl; [|done]. f_equal. set_solver.
    + rewrite IH. apply map_eq. intros i.
      destruct (decide (l = i)) as [->|Hne].
      * rewrite !lookup_alter_eq.
        destruct (h !! i) as [X|]; simpl; [|done]. f_equal. set_solver.
      * by rewrite !lookup_alter_ne.
  - induction v as [|w v IH]; simpl; done.
Qed.

Lemma delete_all_deref p v h :
  deref (foldl (λ h' w, map_delete p w h') h v) p = deref h p ∖ list_to_set v.
Proof.
  rewrite delete_all. destruct p as [l|]; simpl; [|set_solver].
  rewrite lookup_alter_eq. destruct (h !! l) as [X|]; simpl; [done|set_solver].
Qed.

Lemma delete_all_other p v h q :
  q ≠ p → deref (foldl (λ h' w, map_delete p w h') h v) q = deref h q.
Proof.
  intros Hne. rewrite delete_all. destruct p as [l|]; [|done].
  destruct q as [l'|]; simpl; [|done].
  rewrite lookup_alter_ne; [done|congruence].
Qed.

(** Removing the set [D] from [X] lowers the size by the number of members
    of [X] that are in [D]. *)
Lemma removed_count (X D : gset E) :
  Z.of_nat (size X) - Z.of_nat (size (X ∖ D)) = Z.of_nat (size (X ∩ D)).
Proof.
  rewrite size_difference_alt.
  assert (size (X ∩ D) ≤ size X)%nat by (apply subseteq_size; set_solver).
  lia.
Qed.

(** With key sets.
    [Delete(v...)] removes from [s] exactly the values of [v]; absent
    values are ignored.  It returns the number of members of [s] that occur
    in [v], and every set that does not share the storage of [s] is
    unchanged. *)
Lemma Delete_removes s v h :
  (∀ x, Contains (Delete s v h).2 s x = true ↔
        Contains h s x = true ∧ x ∉ v) ∧
  (Delete s v h).1
    = Z.of_nat (size (filter (λ x, x ∈ v) (deref h (m s)))) ∧
  (∀ u, m u ≠ m s → ∀ x, Contains (Delete s v h).2 u x = Contains h u x).
Proof.
  unfold Delete. simpl. split_and!.
  - intros x. rewrite !Contains_true, delete_all_deref. set_solver.
  - unfold len. rewrite delete_all_deref, removed_count. do 2 f_equal.
    apply set_eq. intros x. rewrite elem_of_filter. set_solver.
  - intros u Hne. apply Contains_deref. by apply delete_all_other.
Qed.

Lemma delete_if_filter (del : E → bool) p (xs : list E) h :
  foldl (λ h' x, if del x then map_delete p x h' else h') h xs
  = foldl (λ h' w, map_delete p w h') h (filter (λ x, del x = true) xs).
Proof.
  revert h. induction xs as [|x xs IH]; intros h; simpl; [done|].
  rewrite filter_cons. destruct (del x) eqn:Hx.
  - rewrite decide_True by done. simpl. apply IH.
  - rewrite decide_False by done. apply IH.
Qed.

Lemma DeleteFunc_member tr s (del : E → bool) h x :
  Contains (DeleteFunc tr s (Some del) h).2 s x = true ↔
  Contains h s x = true ∧ del x = false.
Proof.
  unfold DeleteFunc. simpl. rewrite delete_if_filter.
  rewrite !Contains_true, delete_all_deref.
  rewrite elem_of_difference, elem_of_list_to_set, list_elem_of_filter.
  rewrite elem_of_traversal. destruct (del x); naive_solver.
Qed.

(** With key sets.
    [DeleteFunc(del)] with a nil function removes nothing and returns
    0.  Otherwise it removes exactly the members for which [del] returns
    true and returns how many there were, in whatever order the map is
    visited; every set that does not share the storage is unchanged. *)
Lemma DeleteFunc_removes tr s (del : E → bool) h :
  DeleteFunc tr s None h = (0, h) ∧
  (∀ x, Contains (DeleteFunc tr s (Some del) h).2 s x = true ↔
        Contains h s x = true ∧ del x = false) ∧
  (DeleteFunc tr s (Some del) h).1
    = Z.of_nat (size (filter (λ x, del x = true) (deref h (m s)))) ∧
  (∀ u, m u ≠ m s →
        ∀ x, Contains (DeleteFunc tr s (Some del) h).2 u x = Contains h u x).
Proof.
  unfold DeleteFunc. simpl. rewrite delete_if_filter. split_and!; [done|..].
  - intros x. rewrite !Contains_true, delete_all_deref.
    rewrite elem_of_difference, elem_of_list_to_set, list_elem_of_filter.
    rewrite elem_of_traversal. destruct (del x); naive_solver.
  - unfold len. rewrite delete_all_deref, removed_count. do 2 f_equal.
    apply set_eq. intros x.
    rewrite elem_of_filter, elem_of_intersection, elem_of_list_to_set,
      list_elem_of_filter, elem_of_traversal. naive_solver.
  - intros u Hne. apply Contains_deref. by apply delete_all_other.
Qed.

Lemma map_delete_absent p w h : w ∉ deref h p → map_delete p w h = h.
Proof.
  destruct p as [l|]; simpl; [|done]. intros Hw. apply map_eq. intros i.
  destruct (decide (l = i)) as [->|Hne]; [|by rewrite lookup_alter_ne].
  rewrite lookup_alter_eq. destruct (h !! i) as [X|]; simpl; [|done].
  f_equal. set_solver.
Qed.

Lemma map_delete_present p w h :
  w ∈ deref h p → len (map_delete p w h) p = len h p - 1.
Proof.
  intros Hw. unfold len.
  pose proof (delete_all_deref p [w] h) as Hder. simpl in Hder.
  rewrite Hder, size_difference by set_solver.
  rewrite union_empty_r_L, size_singleton.
  assert (size (deref h p) ≠ 0)%nat; [|lia].
  apply size_non_empty_iff. set_solver.
Qed.

(** X7.  [DeleteSeq] over a sequence returns the same count and leaves the
    same heap as [Delete] with the same values: a value is counted once,
    however often the sequence repeats it. *)
Theorem DeleteSeq_is_Delete s (seq : list E) h :
  DeleteSeq s seq h = Delete s seq h.
Proof.
  unfold DeleteSeq, Delete.
  assert (∀ c h0,
    foldl (λ '(k, h') x, if map_has h' (m s) x
                         then (k + 1, map_delete (m s) x h') else (k, h'))
          (c, h0) seq
    = (c + (len h0 (m s)
            - len (foldl (λ h' w, map_delete (m s) w h') h0 seq) (m s)),
       foldl (λ h' w, map_delete (m s) w h') h0 seq)) as Hloop.
  { induction seq as [|x seq IH]; intros c h0; simpl.
    - f_equal. lia.
    - destruct (map_has h0 (m s) x) eqn:Hx; unfold map_has in Hx.
      + apply bool_decide_eq_true in Hx.
        rewrite IH. f_equal. rewrite (map_delete_present _ _ _ Hx). lia.
      + apply bool_decide_eq_false in Hx.
        rewrite IH. by rewrite (map_delete_absent _ _ _ Hx). }
  rewrite Hloop. f_equal.
Qed.

(** With key sets.
    [Pop] on an empty or zero set returns the zero value and false and
    changes nothing.  On a non-empty set it returns true and a member of
    the set, which it removes: the other members stay and the size drops
    by one. *)
Lemma Pop_removes_one tr (zeroE : E) s h :
  (Size h s = 0 → Pop tr zeroE s h = ((zeroE, false), h)) ∧
  (Size h s ≠ 0 →
   (Pop tr zeroE s h).1.2 = true ∧
   Contains h s (Pop tr zeroE s h).1.1 = true ∧
   (∀ y, Contains (Pop tr zeroE s h).2 s y = true ↔
         Contains h s y = true ∧ y ≠ (Pop tr zeroE s h).1.1) ∧
   Size (Pop tr zeroE s h).2 s = Size h s - 1).
Proof.
  unfold Pop. fold (Size h s). split; intros Hsz.
  - by rewrite bool_decide_eq_true_2.
  - rewrite bool_decide_eq_false_2 by done. simpl.
    pose proof (first_of_member zeroE tr h s Hsz) as Hfirst.
    unfold first_of, All in Hfirst.
    set (x := hd zeroE (tr (deref h (m s)))) in *.
    pose proof (delete_all_deref (m s) [x] h) as Hder. simpl in Hder.
    split_and!; [done|by apply Contains_true| |].
    + intros y. rewrite !Contains_true, Hder. set_solver.
    + by apply map_delete_present.
Qed.

(** ** Queries *)

Lemma Size_nonzero h s : Size h s ≠ 0 ↔ ∃ x, Contains h s x = true.
Proof.
  rewrite Size_zero. split.
  - intros Hne. apply set_choose_L in Hne as [x Hx]. exists x.
    by apply Contains_true.
  - intros [x Hx%Contains_true]. set_solver.
Qed.

(** X9.  [ContainsAny] is true exactly when some value of the sequence is a
    member and [ContainsAll] exactly when every value is; on an empty
    sequence they return false and true.  Over the elements of another set
    [u], [ContainsAny] says that the intersection of the two sets is not
    empty and [ContainsAll] that nothing of [u] is left after taking the
    difference with [s]. *)
Theorem ContainsAny_ContainsAll_sets tr tr' s u (seq : list E) h :
  wf h s → wf h u →
  (ContainsAny h s seq = true ↔ ∃ x, x ∈ seq ∧ Contains h s x = true) ∧
  (ContainsAll h s seq = true ↔ ∀ x, x ∈ seq → Contains h s x = true) ∧
  ContainsAny h s [] = false ∧
  ContainsAll h s [] = true ∧
  (ContainsAny h s (All tr h u) = true ↔
   Size (Intersection tr' [s; u] h).2 (Intersection tr' [s; u] h).1 ≠ 0) ∧
  (ContainsAll h s (All tr h u) = true ↔
   Size (Difference tr' u [s] h).2 (Difference tr' u [s] h).1 = 0).
Proof.
  intros Hs Hu.
  assert (∀ seq', ContainsAny h s seq' = true ↔
                  ∃ x, x ∈ seq' ∧ Contains h s x = true) as Hany.
  { intros seq'. unfold ContainsAny. rewrite existsb_exists.
    by setoid_rewrite <- list_elem_of_In. }
  assert (∀ seq', ContainsAll h s seq' = true ↔
                  ∀ x, x ∈ seq' → Contains h s x = true) as Hall.
  { intros seq'. unfold ContainsAll. rewrite forallb_forall.
    by setoid_rewrite <- list_elem_of_In. }
  split_and!; [apply Hany|apply Hall|done|done| |].
  - destruct (Intersection_spec tr' s u [] h) as [_ Hmem].
    { by repeat apply Forall_cons_2. }
    rewrite Hany, Size_nonzero. setoid_rewrite Contains_true.
    setoid_rewrite Hmem. unfold All. setoid_rewrite elem_of_traversal.
    split.
    + intros (x & Hxu & Hxs). exists x. intros s' Hs'. set_solver.
    + intros (x & Hx). exists x. split; apply Hx; set_solver.
  - destruct (Difference_spec tr' u [s] h Hu) as [_ Hmem];
      [by apply Forall_cons_2|done|].
    rewrite Hall, Size_zero. unfold All.
    setoid_rewrite elem_of_traversal. setoid_rewrite Contains_true. split.
    + intros Hsub. apply set_eq. intros x. rewrite Hmem.
      split; [|set_solver]. intros [Hxu Hno]. specialize (Hno s).
      specialize (Hsub x Hxu). set_solver.
    + intros Hempty x Hxu. destruct (decide (x ∈ deref h (m s))); [done|].
      assert (x ∈ (∅ : gset E)) as Hx; [|set_solver].
      rewrite <- Hempty, Hmem. split; [done|]. intros o Ho. set_solver.
Qed.

(** With key sets.
    [ContainsFunc] with a nil function is false.  Otherwise it is
    true exactly when some member satisfies [f], whatever the order of the
    visit; after [DeleteFunc(f)] no member satisfies [f]. *)
Lemma ContainsFunc_exists tr tr' s (f : E → bool) h :
  ContainsFunc tr h s None = false ∧
  (ContainsFunc tr h s (Some f) = true ↔
   ∃ x, Contains h s x = true ∧ f x = true) ∧
  ContainsFunc tr (DeleteFunc tr' s (Some f) h).2 s (Some f) = false.
Proof.
  assert (∀ h', ContainsFunc tr h' s (Some f) = true ↔
                ∃ x, Contains h' s x = true ∧ f x = true) as Hiff.
  { intros h'. unfold ContainsFunc. fold (Size h' s).
    case_bool_decide as Hsz.
    - split; [done|]. intros (x & Hx & _).
      assert (Size h' s ≠ 0) by (apply Size_nonzero; eauto). done.
    - rewrite existsb_exists. setoid_rewrite <- list_elem_of_In.
      setoid_rewrite elem_of_traversal. by setoid_rewrite Contains_true. }
  split_and!; [done|apply Hiff|].
  apply not_true_is_false. rewrite Hiff. intros (x & Hx & Hf).
  apply (proj1 (DeleteFunc_member tr' s f h x)) in Hx as [_ Hx]. congruence.
Qed.

(** ** Set algebra *)

(** A result built in storage of its own: no set that existed before is
    changed by any later mutation of the result. *)
Lemma fresh_result_independent h r h' (ops : list mutation) u :
  frame None h (m r) h' → wf h u →
  deref (mutate_all ops r h').2 (m u) = deref h (m u).
Proof.
  intros Hfr Hu.
  assert (wf h' r) as Hr by apply Hfr.
  pose proof (mutate_all_frame ops r h' Hr) as Hfr'.
  rewrite <- (frame_deref _ _ _ _ (m u) Hfr Hu (valid_cases (m u))).
  apply (frame_deref _ _ _ _ (m u) Hfr').
  - by apply (frame_valid _ _ _ _ _ Hfr).
  - apply (frame_fresh _ _ _ _ (m u) Hfr Hu), valid_cases.
Qed.

Lemma Intersection_frame tr (sets : list Set_) h :
  Forall (wf h) sets →
  frame None h (m (Intersection tr sets h).1) (Intersection tr sets h).2.
Proof.
  intros Hwf. destruct sets as [|s0 [|s1 rest]];
    [by apply frame_refl|by apply frame_refl|].
  by apply Intersection_spec.
Qed.

(** X11.  [Union] returns the set of the values that are members of at
    least one argument, and leaves every existing set as it was; with no
    arguments it returns the zero set. *)
Theorem Union_elements tr (sets : list Set_) h :
  Forall (wf h) sets →
  (∀ x, Contains (Union tr sets h).2 (Union tr sets h).1 x = true ↔
        ∃ s, s ∈ sets ∧ Contains h s x = true) ∧
  (∀ u, wf h u → ∀ x, Contains (Union tr sets h).2 u x = Contains h u x) ∧
  Union tr [] h = (zero, h).
Proof.
  intros Hwf. destruct (Union_spec tr sets h Hwf) as (Hfr & Hmem & _).
  split_and!; [| |done].
  - intros x. rewrite Contains_true, Hmem.
    by setoid_rewrite Contains_true.
  - intros u Hu. apply (frame_Contains _ _ _ _ u Hfr Hu), valid_cases.
Qed.

(** With key sets.
    [Collect] returns the set of the values of the sequence: its
    members are exactly those values, its size is the number of distinct
    ones, it is a zero set exactly when the sequence is empty, and no
    existing set is changed. *)
Lemma Collect_elements (seq : list E) h :
  (∀ x, Contains (Collect seq h).2 (Collect seq h).1 x = true ↔ x ∈ seq) ∧
  Size (Collect seq h).2 (Collect seq h).1
    = Z.of_nat (length (remove_dups seq)) ∧
  (IsZero (Collect seq h).1 = true ↔ seq = []) ∧
  (∀ u, wf h u → ∀ x, Contains (Collect seq h).2 u x = Contains h u x).
Proof.
  destruct (Collect_spec seq h) as (Hfr & Hmem & Hnil).
  split_and!.
  - intros x. by rewrite Contains_true, Hmem.
  - unfold Size, len. rewrite <- size_list_to_set_dups. do 2 f_equal.
    apply set_eq. intros x. by rewrite Hmem, elem_of_list_to_set.
  - by rewrite IsZero_true.
  - intros u Hu. apply (frame_Contains _ _ _ _ u Hfr Hu), valid_cases.
Qed.

(** X13.  The results of [Union], [Intersection], [Collect] and of
    [Difference] with at least one other set own their storage: whatever
    mutating calls are made on the result afterwards, every set that
    existed before the call keeps its members. *)
Theorem algebra_results_independent tr (sets others : list Set_) s
    (seq : list E) (ops : list mutation) u h :
  Forall (wf h) sets → wf h s → Forall (wf h) others → others ≠ [] →
  wf h u →
  (∀ x, Contains (mutate_all ops (Union tr sets h).1 (Union tr sets h).2).2
                 u x = Contains h u x) ∧
  (∀ x, Contains (mutate_all ops (Intersection tr sets h).1
                             (Intersection tr sets h).2).2
                 u x = Contains h u x) ∧
  (∀ x, Contains (mutate_all ops (Difference tr s others h).1
                             (Difference tr s others h).2).2
                 u x = Contains h u x) ∧
  (∀ x, Contains (mutate_all ops (Collect seq h).1 (Collect seq h).2).2
                 u x = Contains h u x).
Proof.
  intros Hsets Hs Hothers Hne Hu. split_and!; apply Contains_deref;
    apply fresh_result_independent; try done.
  - by apply Union_spec.
  - by apply Intersection_frame.
  - by apply Difference_spec.
  - apply Collect_spec.
Qed.

(** X14.  Every member of [a] is in exactly one of [Difference(a, b)] and
    [Intersection(a, b)], and both results hold members of [a] only. *)
Theorem Difference_Intersection_partition tr tr' a b h :
  wf h a → wf h b →
  ∀ x,
    (Contains h a x = true ↔
     Contains (Difference tr a [b] h).2 (Difference tr a [b] h).1 x = true ∨
     Contains (Intersection tr' [a; b] h).2 (Intersection tr' [a; b] h).1 x
       = true) ∧
    ¬ (Contains (Difference tr a [b] h).2 (Difference tr a [b] h).1 x = true ∧
       Contains (Intersection tr' [a; b] h).2 (Intersection tr' [a; b] h).1 x
         = true).
Proof.
  intros Ha Hb x.
  destruct (Difference_spec tr a [b] h Ha) as [_ Hd];
    [by apply Forall_cons_2|done|].
  destruct (Intersection_spec tr' a b [] h) as [_ Hi].
  { by repeat apply Forall_cons_2. }
  rewrite !Contains_true, Hd, Hi.
  destruct (decide (x ∈ deref h (m b))) as [Hxb|Hxb].
  - split.
    + split.
      * intros Hxa. right. intros s' Hs'. set_solver.
      * intros [[? _]|Hall]; [done|]. apply Hall. set_solver.
    + intros [[_ Hno] _]. apply (Hno b); set_solver.
  - split.
    + split.
      * intros Hxa. left. split; [done|]. intros o Ho. set_solver.
      * intros [[? _]|Hall]; [done|]. apply Hall. set_solver.
    + intros [_ Hall]. apply Hxb, Hall. set_solver.
Qed.

(** X22.  With at least one other set, [Difference] builds its result
    from a zero set and allocates only when it keeps a value: the result is
    a zero set exactly when it is empty, also when [s] itself is an
    allocated empty set. *)
Theorem Difference_zero_iff_empty tr s (others : list Set_) h :
  others ≠ [] →
  IsZero (Difference tr s others h).1 = true ↔
  Size (Difference tr s others h).2 (Difference tr s others h).1 = 0.
Proof.
  intros Hne. apply live_zero_iff. unfold Difference.
  rewrite bool_decide_eq_false_2 by (by destruct others).
  destruct (Union tr others h) as [o h1].
  by apply (guarded_add_live
              (λ '(r, h') x, if negb (Contains h' o x) then Add r [x] h'
                             else (r, h'))
              (λ h' x, negb (Contains h' o x))).
Qed.

(** ** Equality, cloning and JSON *)

(** With key sets.
    [Equal] is true exactly when the two sets have the same members;
    whether a set is a zero set or an allocated one plays no part, so the
    zero set equals the set that [Of()] returns. *)
Lemma Equal_same_members tr s u h :
  (Equal tr h s u = true ↔ ∀ x, Contains h s x = Contains h u x) ∧
  Equal tr (Of [] h).2 zero (Of [] h).1 = true ∧
  Equal tr (Of [] h).2 (Of [] h).1 zero = true.
Proof.
  split_and!.
  - rewrite Equal_true. split.
    + intros Heq. by apply Contains_deref.
    + intros Hsame. apply set_eq. intros x.
      rewrite <- !Contains_true. by rewrite Hsame.
  - apply Equal_true. simpl. unfold make_map. by rewrite lookup_insert_eq.
  - apply Equal_true. simpl. unfold make_map. by rewrite lookup_insert_eq.
Qed.

(** X16.  A clone owns its storage in the other direction too: whatever
    mutating calls are made on the source after cloning, the clone keeps
    the members the source had when it was cloned. *)
Theorem Clone_keeps_under_source_mutation s h (ops : list mutation) :
  wf h s →
  ∀ x, Contains (mutate_all ops s (Clone s h).2).2 (Clone s h).1 x
       = Contains h s x.
Proof.
  intros Hs. destruct (Clone_spec s h Hs) as (Hfr & Hder & Hnil).
  destruct (Clone s h) as [c h1]. simpl in *.
  apply Contains_deref. rewrite <- Hder.
  assert (wf h1 s) as Hs1 by (by apply (frame_valid _ _ _ _ _ Hfr)).
  pose proof (mutate_all_frame ops s h1 Hs1) as Hfr'.
  apply (frame_deref _ _ _ _ (m c) Hfr'); [apply Hfr|].
  destruct (m c) as [l|] eqn:Hc; [left|by right].
  intros Heq. destruct Hfr as (_ & _ & Hfresh).
  unfold wf in Hs. rewrite <- Heq in Hs. simpl in Hs.
  by pose proof (Hfresh l Hs ltac:(done)) as [_ ?].
Qed.



(** ** Extremal values *)

Lemma Max_unbeaten (less : E → E → bool) zeroE tr1 tr2 h s :
  strict_order less → Size h s ≠ 0 →
  returns_unbeaten (λ y x, less x y = true) h s (Max zeroE less tr1 tr2 h s).
Proof.
  intros [Hirr Htrans].
  apply (extremal_shape (λ a b, less b a) zeroE tr1 tr2 h s
           "set.Max: empty set"); [done| |done].
  intros a b c Hba Hbc. destruct (less c a) eqn:Hca; [|done].
  by rewrite (Htrans b c a) in Hba.
Qed.

Lemma Min_unbeaten (less : E → E → bool) zeroE tr1 tr2 h s :
  strict_order less → Size h s ≠ 0 →
  returns_unbeaten (λ y x, less y x = true) h s (Min zeroE less tr1 tr2 h s).
Proof.
  intros [Hirr Htrans].
  apply (extremal_shape less zeroE tr1 tr2 h s "set.Min: empty set");
    [done| |done].
  intros a b c Hab Hcb. destruct (less a c) eqn:Hac; [|done].
  by rewrite (Htrans a c b) in Hab.
Qed.

(** X19.  When [<] is a strict total order, the value that [Max] and [Min]
    return does not depend on the order in which the two loops visit the
    map; on a non-empty set [Max] returns the greatest member and [Min] the
    least one. *)
Theorem Max_Min_order_independent (less : E → E → bool) zeroE
    tr1 tr2 tr1' tr2' h s :
  strict_order less →
  (∀ a b, less a b = true ∨ a = b ∨ less b a = true) →
  Max zeroE less tr1 tr2 h s = Max zeroE less tr1' tr2' h s ∧
  Min zeroE less tr1 tr2 h s = Min zeroE less tr1' tr2' h s ∧
  (Size h s ≠ 0 →
   ∃ hi lo, Max zeroE less tr1 tr2 h s = Returns hi ∧
            Min zeroE less tr1 tr2 h s = Returns lo ∧
            ∀ y, Contains h s y = true →
                 (y = hi ∨ less y hi = true) ∧ (y = lo ∨ less lo y = true)).
Proof.
  intros Hord Htotal.
  destruct (decide (Size h s = 0)) as [Hsz|Hsz].
  { unfold Max, Min. rewrite !bool_decide_eq_true_2 by lia. done. }
  destruct (Max_unbeaten less zeroE tr1 tr2 h s Hord Hsz)
    as (hi & HM & Hhi & Hbest).
  destruct (Max_unbeaten less zeroE tr1' tr2' h s Hord Hsz)
    as (hi' & HM' & Hhi' & Hbest').
  destruct (Min_unbeaten less zeroE tr1 tr2 h s Hord Hsz)
    as (lo & Hm & Hlo & Hleast).
  destruct (Min_unbeaten less zeroE tr1' tr2' h s Hord Hsz)
    as (lo' & Hm' & Hlo' & Hleast').
  assert (hi = hi') as <-.
  { destruct (Htotal hi hi') as [Hlt|[?|Hlt]]; [|done|].
    - by destruct (Hbest hi' Hhi').
    - by destruct (Hbest' hi Hhi). }
  assert (lo = lo') as <-.
  { destruct (Htotal lo lo') as [Hlt|[?|Hlt]]; [|done|].
    - by destruct (Hleast' lo Hlo).
    - by destruct (Hleast lo' Hlo'). }
  split_and!; [congruence|congruence|]. intros _. exists hi, lo.
  split_and!; [done|done|]. intros y Hy. split.
  - destruct (Htotal y hi) as [?|[?|Hlt]]; [by right|by left|].
    by destruct (Hbest y Hy).
  - destruct (Htotal y lo) as [Hlt|[?|?]]; [|by left|by right].
    by destruct (Hleast y Hy).
Qed.

(** The selection loop keeps the first of the best values: everything
    visited before the value it ends with is beaten by that value, and
    nothing visited after it beats it. *)
Lemma select_first (beats : E → E → bool) m0 (xs : list E) :
  (∀ a b c, beats c b = true → beats b a = true → beats c a = true) →
  (∀ a b c, beats a b = false → beats b c = false → beats a c = false) →
  ∃ pre post,
    m0 :: xs
    = pre ++ foldl (λ b a, if beats a b then a else b) m0 xs :: post ∧
    (∀ z, z ∈ pre →
          beats (foldl (λ b a, if beats a b then a else b) m0 xs) z = true) ∧
    (∀ y, y ∈ post →
          beats y (foldl (λ b a, if beats a b then a else b) m0 xs) = false).
Proof.
  intros Htrans Hneg. induction xs as [|x xs IH] using rev_ind.
  - exists [], []. simpl. split_and!; [done|set_solver|set_solver].
  - rewrite foldl_app. simpl.
    set (best := foldl (λ b a, if beats a b then a else b) m0 xs) in *.
    destruct IH as (pre & post & Heq & Hpre & Hpost).
    destruct (beats x best) eqn:Hx.
    + exists (pre ++ best :: post), []. split_and!.
      * by rewrite app_comm_cons, Heq, <- app_assoc.
      * intros z [Hz|[->|Hz]%elem_of_cons]%elem_of_app.
        -- eapply Htrans; [done|by apply Hpre].
        -- done.
        -- destruct (beats x z) eqn:Hxz; [done|].
           by rewrite (Hneg x z best Hxz (Hpost z Hz)) in Hx.
      * set_solver.
    + exists pre, (post ++ [x]). split_and!.
      * by rewrite app_comm_cons, Heq, <- app_assoc.
      * done.
      * intros y [Hy|Hy%list_elem_of_singleton]%elem_of_app;
          [by apply Hpost|by subst].
Qed.

(** X20.  Among several maximal (minimal) elements, [MaxFunc] ([MinFunc])
    returns the first one visited, where the visit is the first element of
    the first loop followed by the elements of the second loop: every
    element visited before the returned one compares less (greater) than
    it, and no element visited after it compares greater (less). *)
Theorem MaxFunc_MinFunc_first (cmp : E → E → Z) zeroE tr1 tr2 h s :
  three_way cmp → Size h s ≠ 0 →
  (∃ x pre post,
     MaxFunc zeroE tr1 tr2 h s (Some cmp) = Returns x ∧
     first_of zeroE tr1 h s :: All tr2 h s = pre ++ x :: post ∧
     (∀ z, z ∈ pre → cmp x z > 0) ∧ (∀ y, y ∈ post → cmp y x ≤ 0)) ∧
  (∃ x pre post,
     MinFunc zeroE tr1 tr2 h s (Some cmp) = Returns x ∧
     first_of zeroE tr1 h s :: All tr2 h s = pre ++ x :: post ∧
     (∀ z, z ∈ pre → cmp x z < 0) ∧ (∀ y, y ∈ post → 0 ≤ cmp y x)).
Proof.
  intros [Hsgn Hle] Hsz. unfold MaxFunc, MinFunc.
  rewrite !bool_decide_eq_false_2 by (rewrite Size_lt_1; done).
  split.
  - destruct (select_first (λ a b, bool_decide (cmp a b > 0))
                (first_of zeroE tr1 h s) (All tr2 h s))
      as (pre & post & Heq & Hpre & Hpost).
    + intros a b c Hcb%bool_decide_eq_true Hba%bool_decide_eq_true.
      apply bool_decide_eq_true.
      pose proof (Hsgn c a). pose proof (Hsgn a b). pose proof (Hsgn c b).
      pose proof (Hle c a b). lia.
    + intros a b c Hab%bool_decide_eq_false Hbc%bool_decide_eq_false.
      apply bool_decide_eq_false. pose proof (Hle a b c). lia.
    + eexists _, pre, post. split_and!; [reflexivity|exact Heq| |].
      * intros z Hz%Hpre. by apply bool_decide_eq_true in Hz.
      * intros y Hy. apply Hpost, bool_decide_eq_false in Hy. lia.
  - destruct (select_first (λ a b, bool_decide (cmp a b < 0))
                (first_of zeroE tr1 h s) (All tr2 h s))
      as (pre & post & Heq & Hpre & Hpost).
    + intros a b c Hcb%bool_decide_eq_true Hba%bool_decide_eq_true.
      apply bool_decide_eq_true.
      pose proof (Hsgn c a). pose proof (Hsgn a b). pose proof (Hsgn c b).
      pose proof (Hle b a c). pose proof (Hsgn b a). pose proof (Hsgn b c).
      pose proof (Hle a c b). lia.
    + intros a b c Hab%bool_decide_eq_false Hbc%bool_decide_eq_false.
      apply bool_decide_eq_false.
      pose proof (Hsgn a b). pose proof (Hsgn b c). pose proof (Hsgn a c).
      pose proof (Hle c b a). lia.
    + eexists _, pre, post. split_and!; [reflexivity|exact Heq| |].
      * intros z Hz%Hpre. by apply bool_decide_eq_true in Hz.
      * intros y Hy. apply Hpost, bool_decide_eq_false in Hy. lia.
Qed.

(** ** Rendering *)

Lemma String_leb_trans (a b c : string) :
  String.leb a b = true → String.leb b c = true → String.leb a c = true.
Proof.
  unfold String.leb.
  assert (∀ a b c : string,
    String.compare a b ≠ Gt → String.compare b c ≠ Gt →
    String.compare a c ≠ Gt) as Hcmp.
  { clear a b c. intros a. induction a as [|ca a IH];
      intros [|cb b] [|cc c]; simpl; try done.
    unfold Ascii.compare.
    pose proof (Ascii.compare_eq_iff ca cb) as Hab.
    pose proof (Ascii.compare_eq_iff cb cc) as Hbc.
    unfold Ascii.compare in Hab, Hbc.
    destruct (N.compare_spec (N_of_ascii ca) (N_of_ascii cb)) as [E1|L1|G1];
      destruct (N.compare_spec (N_of_ascii cb) (N_of_ascii cc)) as [E2|L2|G2];
      destruct (N.compare_spec (N_of_ascii ca) (N_of_ascii cc)) as [E3|L3|G3];
      try done; try lia; eauto. }
  intros Hab Hbc. specialize (Hcmp a b c).
  destruct (String.compare a b), (String.compare b c), (String.compare a c);
    try done; by destruct Hcmp.
Qed.

Lemma sort_insert_Permutation (a : string) (p : list string) :
  sort_insert a p ≡ₚ a :: p.
Proof.
  induction p as [|b p IH]; simpl; [done|].
  destruct (String.leb a b); [done|]. rewrite IH. apply Permutation_swap.
Qed.

Lemma slices_Sort_Permutation (p : list string) : slices_Sort p ≡ₚ p.
Proof.
  unfold slices_Sort. induction p as [|a p IH]; simpl; [done|].
  by rewrite sort_insert_Permutation, IH.
Qed.

Lemma sort_insert_sorted (a : string) (p : list string) :
  StronglySorted (λ b c, String.leb b c = true) p →
  StronglySorted (λ b c, String.leb b c = true) (sort_insert a p).
Proof.
  induction 1 as [|b p Hp IH Hb]; simpl.
  - by repeat constructor.
  - destruct (String.leb a b) eqn:Hab.
    + constructor; [by constructor|]. constructor; [done|].
      eapply Forall_impl; [exact Hb|]. intros c Hbc.
      by apply (String_leb_trans a b c).
    + constructor; [done|].
      rewrite sort_insert_Permutation. constructor; [|done].
      destruct (String.leb_total a b); congruence.
Qed.

Lemma slices_Sort_sorted (p : list string) :
  StronglySorted (λ b c, String.leb b c = true) (slices_Sort p).
Proof.
  unfold slices_Sort. induction p as [|a p IH]; simpl; [constructor|].
  by apply sort_insert_sorted.
Qed.

Lemma foldl_snoc_fmap {A B} (g : A → B) (bs : list A) (acc : list B) :
  foldl (λ a b, a ++ [g b]) acc bs = acc ++ (g <$> bs).
Proof.
  revert acc. induction bs as [|b bs IH]; intros acc; simpl.
  - by rewrite app_nil_r.
  - by rewrite IH, <- app_assoc.
Qed.

(** X21.  [String] renders the elements in ascending order of their texts,
    each element once, between braces and separated by single spaces; the
    result is the same in whatever order the map is visited. *)
Theorem String_sorted_deterministic (Sprint : E → string) tr tr' h s :
  String_ Sprint tr h s = String_ Sprint tr' h s ∧
  ∃ texts : list string,
    String_ Sprint tr h s
    = ("{" +:+ strings_Join texts " " +:+ "}")%string ∧
    texts ≡ₚ Sprint <$> elements (deref h (m s)) ∧
    StronglySorted (λ b c, String.leb b c = true) texts.
Proof.
  unfold String_, All. rewrite !foldl_snoc_fmap. simpl.
  assert (∀ t : Traversal, slices_Sort (Sprint <$> t (deref h (m s)))
                           ≡ₚ Sprint <$> elements (deref h (m s))) as Hperm.
  { intros t. by rewrite slices_Sort_Permutation, (keys_perm t). }
  split.
  - assert (slices_Sort (Sprint <$> tr (deref h (m s)))
            = slices_Sort (Sprint <$> tr' (deref h (m s)))) as ->; [|done].
    apply (StronglySorted_unique_strong (λ b c, String.leb b c = true)).
    + intros a b _ _. apply String.leb_antisym.
    + apply slices_Sort_sorted.
    + apply slices_Sort_sorted.
    + by rewrite !Hperm.
  - eexists. split_and!; [reflexivity|apply Hperm|apply slices_Sort_sorted].
Qed.

End goset_more.

Section more_instances.
Import Examples.
Abbreviation heapZ := (gmap loc (gset Z)).

Lemma ab_sets_wf : Forall (wf ab_heap) [a_set; b_set].
Proof.
  apply Forall_cons_2; [exact a_set_wf|].
  apply Forall_cons_2; [exact b_set_wf|]. apply Forall_nil_2.
Qed.

Lemma b_sets_wf : Forall (wf ab_heap) [b_set].
Proof. apply Forall_cons_2; [exact b_set_wf|]. apply Forall_nil_2. Qed.


(** X4 at [a.Clear()], seen from [b]. *)
Lemma Clear_empties_witness :
  Size (Clear a_set ab_heap) a_set = 0 ∧
  ∀ x, Contains (Clear a_set ab_heap) b_set x = Contains ab_heap b_set x.
Proof.
  pose proof (Clear_empties a_set ab_heap a_set_wf)
    as (Hsize & _ & _ & _ & Hkeep).
  split; [exact Hsize|]. apply (Hkeep b_set b_set_wf). discriminate.
Defined.

(** X9 at [a = {1 2 3 4}] and [b = {3 4 5 6}]. *)
Lemma ContainsAny_ContainsAll_sets_witness :
  (ContainsAny ab_heap a_set (All elements_order ab_heap b_set) = true ↔
   Size (Intersection reverse_order [a_set; b_set] ab_heap).2
        (Intersection reverse_order [a_set; b_set] ab_heap).1 ≠ 0) ∧
  (ContainsAll ab_heap a_set (All elements_order ab_heap b_set) = true ↔
   Size (Difference reverse_order b_set [a_set] ab_heap).2
        (Difference reverse_order b_set [a_set] ab_heap).1 = 0).
Proof.
  pose proof (ContainsAny_ContainsAll_sets elements_order reverse_order
                a_set b_set [] ab_heap a_set_wf b_set_wf)
    as (_ & _ & _ & _ & Hany & Hall).
  split; [exact Hany|exact Hall].
Defined.

(** X11 at [Union(a, b)]. *)
Lemma Union_elements_witness :
  Forall (wf ab_heap) [a_set; b_set] ∧
  ∀ x, Contains (Union elements_order [a_set; b_set] ab_heap).2
                (Union elements_order [a_set; b_set] ab_heap).1 x = true ↔
       ∃ s, s ∈ [a_set; b_set] ∧ Contains ab_heap s x = true.
Proof.
  split; [exact ab_sets_wf|].
  exact (proj1 (Union_elements elements_order [a_set; b_set] ab_heap
                  ab_sets_wf)).
Defined.

(** X13 at the results of the algebra functions on [a] and [b], each
    cleared and refilled afterwards. *)
Lemma algebra_results_independent_witness :
  (∀ x, Contains (mutate_all [CallClear; CallAdd [8]]
                    (Union elements_order [a_set; b_set] ab_heap).1
                    (Union elements_order [a_set; b_set] ab_heap).2).2
                 b_set x = Contains ab_heap b_set x) ∧
  (∀ x, Contains (mutate_all [CallClear; CallAdd [8]]
                    (Difference elements_order a_set [b_set] ab_heap).1
                    (Difference elements_order a_set [b_set] ab_heap).2).2
                 b_set x = Contains ab_heap b_set x).
Proof.
  pose proof (algebra_results_independent elements_order [a_set; b_set]
                [b_set] a_set [9] [CallClear; CallAdd [8]] b_set ab_heap
                ab_sets_wf a_set_wf b_sets_wf ltac:(discriminate) b_set_wf)
    as (HU & _ & HD & _).
  split; [exact HU|exact HD].
Defined.

(** X22 at [Difference(a, a)], which is empty. *)
Lemma Difference_zero_iff_empty_witness :
  IsZero (Difference elements_order a_set [a_set] ab_heap).1 = true ∧
  Size (Difference elements_order a_set [a_set] ab_heap).2
       (Difference elements_order a_set [a_set] ab_heap).1 = 0.
Proof.
  split; [|reflexivity].
  apply (Difference_zero_iff_empty elements_order a_set [a_set] ab_heap);
    [discriminate|reflexivity].
Defined.

(** X14 at [a] and [b]. *)
Lemma Difference_Intersection_partition_witness :
  Contains ab_heap a_set 3 = true ↔
  Contains (Difference elements_order a_set [b_set] ab_heap).2
           (Difference elements_order a_set [b_set] ab_heap).1 3 = true ∨
  Contains (Intersection reverse_order [a_set; b_set] ab_heap).2
           (Intersection reverse_order [a_set; b_set] ab_heap).1 3 = true.
Proof.
  exact (proj1 (Difference_Intersection_partition elements_order
                  reverse_order a_set b_set ab_heap a_set_wf b_set_wf 3)).
Defined.

(** X16 at a clone of [a], with [a] cleared afterwards. *)
Lemma Clone_keeps_under_source_mutation_witness :
  wf ab_heap a_set ∧
  ∀ x, Contains (mutate_all [CallClear; CallAdd [8]] a_set
                   (Clone a_set ab_heap).2).2
                (Clone a_set ab_heap).1 x
       = Contains ab_heap a_set x.
Proof.
  split; [exact a_set_wf|].
  exact (Clone_keeps_under_source_mutation a_set ab_heap
           [CallClear; CallAdd [8]] a_set_wf).
Defined.



(** X19 at [a] with the order of [int]. *)
Lemma Max_Min_order_independent_witness :
  Max 0 Z.ltb elements_order reverse_order ab_heap a_set
  = Max 0 Z.ltb reverse_order elements_order ab_heap a_set ∧
  Min 0 Z.ltb elements_order reverse_order ab_heap a_set
  = Min 0 Z.ltb reverse_order elements_order ab_heap a_set.
Proof.
  pose proof (Max_Min_order_independent Z.ltb 0 elements_order reverse_order
                reverse_order elements_order ab_heap a_set
                Z_ltb_strict_order Z_ltb_total) as (HM & Hm & _).
  split; [exact HM|exact Hm].
Defined.

(** X20 at [a] with [cmp.Compare]. *)
Lemma MaxFunc_MinFunc_first_witness :
  Size ab_heap a_set ≠ 0 ∧
  ∃ x pre post,
    MaxFunc 0 elements_order reverse_order ab_heap a_set (Some int_Compare)
      = Returns x ∧
    first_of 0 elements_order ab_heap a_set
      :: All reverse_order ab_heap a_set = pre ++ x :: post ∧
    (∀ z, z ∈ pre → int_Compare x z > 0) ∧
    (∀ y, y ∈ post → int_Compare y x ≤ 0).
Proof.
  assert (Size ab_heap a_set ≠ 0) as Hne by (vm_compute; discriminate).
  split; [exact Hne|].
  exact (proj1 (MaxFunc_MinFunc_first int_Compare 0 elements_order
                  reverse_order ab_heap a_set int_Compare_three_way Hne)).
Defined.

End more_instances.

Section element_type_instances.
Import Examples.




End element_type_instances.

(** * Element types whose values all equal themselves

    For such a type no map ever holds an unfound entry, and every method
    over the maps of [Comparable] does on the key sets what the method of
    the same name over key sets does. *)
Section comparable_facts.
Context `{Countable E}.
Variable self_equal : E → bool.
Hypothesis Hrefl : Comparable.reflexive self_equal.
Implicit Types (h : gmap loc (Comparable.gomap (E:=E))) (s u : Set_).
Implicit Types (p : option loc) (l : loc) (v : list E) (w x : E).

Lemma key_sets_dom h : dom (key_sets h) = dom h.
Proof. unfold key_sets. apply dom_fmap_L. Qed.

Lemma found_deref h p :
  Comparable.found (Comparable.deref h p) = deref (key_sets h) p.
Proof.
  destruct p as [l|]; simpl; [|done]. unfold key_sets.
  rewrite lookup_fmap. by destruct (h !! l).
Qed.

Lemma unfound_deref h p :
  Comparable.no_unfound h → Comparable.unfound (Comparable.deref h p) = [].
Proof.
  intros Hpure. destruct p as [l|]; simpl; [|done].
  destruct (h !! l) as [c|] eqn:Hl; simpl; [by apply (Hpure l)|done].
Qed.

Lemma deref_key_sets h p :
  Comparable.no_unfound h →
  Comparable.deref h p = Comparable.mkMap (deref (key_sets h) p) [].
Proof.
  intros Hpure. rewrite <- found_deref, <- (unfound_deref h p Hpure).
  by destruct (Comparable.deref h p).
Qed.

Lemma len_key_sets h p :
  Comparable.no_unfound h → Comparable.len h p = len (key_sets h) p.
Proof.
  intros Hpure. unfold Comparable.len, len.
  rewrite found_deref, unfound_deref by done. simpl. lia.
Qed.

Lemma has_key_sets h p x :
  Comparable.map_has self_equal h p x = map_has (key_sets h) p x.
Proof.
  unfold Comparable.map_has, map_has. by rewrite Hrefl, found_deref.
Qed.

Lemma alter_key_sets (fG : Comparable.gomap → Comparable.gomap)
    (fS : gset E → gset E) l h :
  (∀ c, Comparable.found (fG c) = fS (Comparable.found c)) →
  key_sets (alter fG l h) = alter fS l (key_sets h).
Proof.
  intros Hf. apply map_eq. intros i. unfold key_sets.
  destruct (decide (l = i)) as [->|Hne].
  - rewrite lookup_fmap, !lookup_alter_eq, lookup_fmap.
    destruct (h !! i); simpl; [by rewrite Hf|done].
  - by rewrite lookup_fmap, !lookup_alter_ne, lookup_fmap.
Qed.

Lemma alter_no_unfound (fG : Comparable.gomap → Comparable.gomap) l h :
  (∀ c, Comparable.unfound c = [] → Comparable.unfound (fG c) = []) →
  Comparable.no_unfound h → Comparable.no_unfound (alter fG l h).
Proof.
  intros Hf Hpure i c. destruct (decide (l = i)) as [->|Hne].
  - rewrite lookup_alter_eq. destruct (h !! i) as [c'|] eqn:Hi; [|done].
    simpl. intros [= <-]. apply Hf. by apply (Hpure i).
  - rewrite lookup_alter_ne by done. apply Hpure.
Qed.

Lemma insert_no_unfound l c h :
  Comparable.unfound c = [] →
  Comparable.no_unfound h → Comparable.no_unfound (<[l := c]> h).
Proof.
  intros Hc Hpure i c'. destruct (decide (l = i)) as [->|Hne].
  - rewrite lookup_insert_eq. by intros [= <-].
  - rewrite lookup_insert_ne by done. apply Hpure.
Qed.

Lemma foldl_key_sets {A}
    (gG : gmap loc (Comparable.gomap (E:=E)) → A → gmap loc Comparable.gomap)
    (gS : gmap loc (gset E) → A → gmap loc (gset E)) (bs : list A) h :
  (∀ h' b, Comparable.no_unfound h' →
           key_sets (gG h' b) = gS (key_sets h') b ∧
           Comparable.no_unfound (gG h' b)) →
  Comparable.no_unfound h →
  key_sets (foldl gG h bs) = foldl gS (key_sets h) bs ∧
  Comparable.no_unfound (foldl gG h bs).
Proof.
  intros Hg. revert h. induction bs as [|b bs IH]; intros h Hpure; simpl.
  - done.
  - destruct (Hg h b Hpure) as [<- Hpure']. by apply IH.
Qed.

Lemma foldl_pair_key_sets {A B}
    (gG : B * gmap loc (Comparable.gomap (E:=E)) → A
          → B * gmap loc Comparable.gomap)
    (gS : B * gmap loc (gset E) → A → B * gmap loc (gset E))
    (bs : list A) (b0 : B) h :
  (∀ b h' a, Comparable.no_unfound h' →
             on_key_sets (gG (b, h') a) = gS (b, key_sets h') a ∧
             Comparable.no_unfound (gG (b, h') a).2) →
  Comparable.no_unfound h →
  on_key_sets (foldl gG (b0, h) bs) = foldl gS (b0, key_sets h) bs ∧
  Comparable.no_unfound (foldl gG (b0, h) bs).2.
Proof.
  intros Hg. revert b0 h. induction bs as [|a bs IH]; intros b0 h Hpure; simpl.
  - done.
  - destruct (Hg b0 h a Hpure) as [Heq Hpure'].
    destruct (gG (b0, h) a) as [b1 h1]. unfold on_key_sets in Heq.
    simpl in *. rewrite <- Heq. by apply IH.
Qed.

Lemma assign_key_sets l w h :
  Comparable.no_unfound h →
  key_sets (Comparable.map_assign self_equal l w h)
    = map_assign l w (key_sets h) ∧
  Comparable.no_unfound (Comparable.map_assign self_equal l w h).
Proof.
  intros Hpure. unfold Comparable.map_assign, map_assign. rewrite Hrefl.
  split; [by apply alter_key_sets|by apply alter_no_unfound].
Qed.

Lemma delete_key_sets p w h :
  Comparable.no_unfound h →
  key_sets (Comparable.map_delete self_equal p w h)
    = map_delete p w (key_sets h) ∧
  Comparable.no_unfound (Comparable.map_delete self_equal p w h).
Proof.
  intros Hpure. unfold Comparable.map_delete, map_delete. rewrite Hrefl.
  destruct p as [l|]; [|done].
  split; [by apply alter_key_sets|by apply alter_no_unfound].
Qed.


Lemma insert_key_sets l (c : Comparable.gomap (E:=E)) h :
  key_sets (<[l := c]> h) = <[l := Comparable.found c]> (key_sets h).
Proof. unfold key_sets. apply fmap_insert. Qed.

Lemma Add_key_sets s v h :
  Comparable.no_unfound h →
  on_key_sets (Comparable.Add self_equal s v h) = Add s v (key_sets h) ∧
  Comparable.no_unfound (Comparable.Add self_equal s v h).2.
Proof.
  intros Hpure. unfold Comparable.Add, Add, Comparable.make_map, make_map.
  rewrite key_sets_dom.
  destruct (m s) as [l|]; unfold on_key_sets; simpl.
  - destruct (foldl_key_sets (λ h' w, Comparable.map_assign self_equal l w h')
                (λ g w, map_assign l w g) v h) as [-> Hpure'];
      [intros; by apply assign_key_sets|done|done].
  - set (l := fresh (dom h)).
    destruct (foldl_key_sets (λ h' w, Comparable.map_assign self_equal l w h')
                (λ g w, map_assign l w g) v
                (<[l := Comparable.empty_map]> h)) as [-> Hpure'];
      [intros; by apply assign_key_sets|by apply insert_no_unfound|].
    by rewrite insert_key_sets.
Qed.

Lemma AddSeq_key_sets s (seq : list E) h :
  Comparable.no_unfound h →
  on_key_sets (Comparable.AddSeq self_equal s seq h)
    = AddSeq s seq (key_sets h) ∧
  Comparable.no_unfound (Comparable.AddSeq self_equal s seq h).2.
Proof.
  intros Hpure. unfold Comparable.AddSeq, AddSeq.
  apply (foldl_pair_key_sets
           (λ '(s', h') x, Comparable.Add self_equal s' [x] h')
           (λ '(s', g) x, Add s' [x] g)); [|done].
  intros. by apply Add_key_sets.
Qed.

Lemma Collect_key_sets (seq : list E) h :
  Comparable.no_unfound h →
  on_key_sets (Comparable.Collect self_equal seq h)
    = Collect seq (key_sets h) ∧
  Comparable.no_unfound (Comparable.Collect self_equal seq h).2.
Proof. apply (AddSeq_key_sets zero). Qed.


Lemma keys_key_sets (tr : Comparable.Traversal (E:=E)) h p :
  Comparable.no_unfound h →
  Comparable.keys tr (Comparable.deref h p)
    = set_order tr (deref (key_sets h) p).
Proof. intros Hpure. by rewrite deref_key_sets. Qed.

Lemma Of_key_sets v h :
  Comparable.no_unfound h →
  on_key_sets (Comparable.Of self_equal v h) = Of v (key_sets h) ∧
  Comparable.no_unfound (Comparable.Of self_equal v h).2.
Proof. apply Add_key_sets. Qed.


Lemma Contains_key_sets h s x :
  Comparable.Contains self_equal h s x = Contains (key_sets h) s x.
Proof. apply has_key_sets. Qed.

Lemma Size_key_sets h s :
  Comparable.no_unfound h → Comparable.Size h s = Size (key_sets h) s.
Proof. apply len_key_sets. Qed.

Lemma Equal_key_sets (tr : Comparable.Traversal (E:=E)) h s u :
  Comparable.no_unfound h →
  Comparable.Equal self_equal tr h s u
    = Equal (set_order tr) (key_sets h) s u.
Proof.
  intros Hpure. unfold Comparable.Equal, Equal.
  rewrite !len_key_sets, keys_key_sets by done.
  repeat case_match; try done.
  apply forallb_agree. intros x _. apply Contains_key_sets.
Qed.

Lemma ContainsFunc_key_sets (tr : Comparable.Traversal (E:=E)) h s f :
  Comparable.no_unfound h →
  Comparable.ContainsFunc tr h s f
    = ContainsFunc (set_order tr) (key_sets h) s f.
Proof.
  intros Hpure. unfold Comparable.ContainsFunc, ContainsFunc.
  destruct f as [f|]; [|done]. by rewrite len_key_sets, keys_key_sets.
Qed.

Lemma Delete_key_sets s v h :
  Comparable.no_unfound h →
  on_key_sets (Comparable.Delete self_equal s v h)
    = Delete s v (key_sets h) ∧
  Comparable.no_unfound (Comparable.Delete self_equal s v h).2.
Proof.
  intros Hpure. unfold Comparable.Delete, Delete, on_key_sets. simpl.
  destruct (foldl_key_sets
              (λ h' w, Comparable.map_delete self_equal (m s) w h')
              (λ g w, map_delete (m s) w g) v h) as [Heq Hpure'];
    [intros; by apply delete_key_sets|done|].
  by rewrite <- Heq, !len_key_sets.
Qed.

Lemma DeleteFunc_key_sets (tr : Comparable.Traversal (E:=E)) s del h :
  Comparable.no_unfound h →
  on_key_sets (Comparable.DeleteFunc self_equal tr s del h)
    = DeleteFunc (set_order tr) s del (key_sets h) ∧
  Comparable.no_unfound (Comparable.DeleteFunc self_equal tr s del h).2.
Proof.
  intros Hpure. unfold Comparable.DeleteFunc, DeleteFunc.
  destruct del as [del|]; [|done].
  pose proof (keys_key_sets tr h (m s) Hpure) as Hk.
  destruct (foldl_key_sets
              (λ h' x, if del x
                       then Comparable.map_delete self_equal (m s) x h'
                       else h')
              (λ g x, if del x then map_delete (m s) x g else g)
              (Comparable.keys tr (Comparable.deref h (m s))) h)
    as [Heq Hpure']; [|done|].
  - intros h' x Hh'. destruct (del x); [by apply delete_key_sets|done].
  - split; [|exact Hpure']. unfold on_key_sets. cbn [fst snd].
    rewrite !len_key_sets by done. rewrite Heq, Hk. reflexivity.
Qed.


Lemma Pop_key_sets (tr : Comparable.Traversal (E:=E)) zeroE s h :
  Comparable.no_unfound h →
  on_key_sets (Comparable.Pop self_equal tr zeroE s h)
    = Pop (set_order tr) zeroE s (key_sets h) ∧
  Comparable.no_unfound (Comparable.Pop self_equal tr zeroE s h).2.
Proof.
  intros Hpure. unfold Comparable.Pop, Pop.
  pose proof (keys_key_sets tr h (m s) Hpure) as Hk.
  rewrite len_key_sets by done.
  destruct (bool_decide (len (key_sets h) (m s) = 0)); [done|].
  destruct (delete_key_sets (m s)
              (hd zeroE (Comparable.keys tr (Comparable.deref h (m s))))
              h Hpure) as [Heq Hpure'].
  split; [|exact Hpure']. unfold on_key_sets. cbn [fst snd].
  rewrite Heq, Hk. reflexivity.
Qed.




Lemma wf_key_sets h s : Comparable.wf h s ↔ wf (key_sets h) s.
Proof.
  unfold Comparable.wf, wf, valid. destruct (m s); [|done].
  by rewrite key_sets_dom.
Qed.






(** X1 (for reflexive [==]).  [Of(v...)] returns an allocated set whose
    members are exactly the values of [v] and whose size is the number of
    distinct values in [v]; no set that existed before is changed. *)
Theorem Of_elements_reflexive v h :
  Comparable.no_unfound h →
  IsZero (Comparable.Of self_equal v h).1 = false ∧
  (∀ x, Comparable.Contains self_equal (Comparable.Of self_equal v h).2
          (Comparable.Of self_equal v h).1 x = true ↔ x ∈ v) ∧
  Comparable.Size (Comparable.Of self_equal v h).2
                  (Comparable.Of self_equal v h).1
    = Z.of_nat (length (remove_dups v)) ∧
  (∀ u, Comparable.wf h u →
        ∀ x, Comparable.Contains self_equal (Comparable.Of self_equal v h).2
               u x
             = Comparable.Contains self_equal h u x).
Proof.
  intros Hpure. destruct (Of_key_sets v h Hpure) as [Heq Hpure'].
  destruct (Of_elements v (key_sets h)) as (Hz & Hmem & Hsz & Hfr).
  rewrite <- Heq in Hz, Hmem, Hsz, Hfr.
  unfold on_key_sets in Hz, Hmem, Hsz, Hfr.
  cbn [fst snd] in Hz, Hmem, Hsz, Hfr.
  split_and!; [done| | |].
  - intros x. rewrite Contains_key_sets. apply Hmem.
  - by rewrite Size_key_sets.
  - intros u Hu x. rewrite !Contains_key_sets. apply Hfr.
    by apply wf_key_sets.
Qed.

(** X2 (for reflexive [==]).  After [s.Add(v...)] the members of [s] are
    the old members and the values of [v].  An allocated receiver keeps its
    storage, every set that does not share it is unchanged, and adding the
    same values again changes neither the members nor the size. *)
Theorem Add_elements_reflexive s v h :
  Comparable.no_unfound h → Comparable.wf h s →
  (∀ x, Comparable.Contains self_equal (Comparable.Add self_equal s v h).2
          (Comparable.Add self_equal s v h).1 x = true ↔
        Comparable.Contains self_equal h s x = true ∨ x ∈ v) ∧
  (IsZero s = false → (Comparable.Add self_equal s v h).1 = s) ∧
  (∀ u, Comparable.wf h u → m u ≠ m s →
        ∀ x, Comparable.Contains self_equal
               (Comparable.Add self_equal s v h).2 u x
             = Comparable.Contains self_equal h u x) ∧
  (∀ x, Comparable.Contains self_equal
          (Comparable.Add self_equal (Comparable.Add self_equal s v h).1 v
                          (Comparable.Add self_equal s v h).2).2
          (Comparable.Add self_equal (Comparable.Add self_equal s v h).1 v
                          (Comparable.Add self_equal s v h).2).1 x
        = Comparable.Contains self_equal (Comparable.Add self_equal s v h).2
            (Comparable.Add self_equal s v h).1 x) ∧
  Comparable.Size
    (Comparable.Add self_equal (Comparable.Add self_equal s v h).1 v
                    (Comparable.Add self_equal s v h).2).2
    (Comparable.Add self_equal (Comparable.Add self_equal s v h).1 v
                    (Comparable.Add self_equal s v h).2).1
  = Comparable.Size (Comparable.Add self_equal s v h).2
                    (Comparable.Add self_equal s v h).1.
Proof.
  intros Hpure Hwf. apply wf_key_sets in Hwf.
  destruct (Add_key_sets s v h Hpure) as [Heq1 Hpure1].
  destruct (Add_key_sets (Comparable.Add self_equal s v h).1 v
              (Comparable.Add self_equal s v h).2 Hpure1) as [Heq2 Hpure2].
  destruct (Add_elements s v (key_sets h) Hwf)
    as (Hmem & Hz & Hfr & Hmem2 & Hsz2).
  rewrite <- Heq1 in Hmem, Hz, Hfr, Hmem2, Hsz2.
  unfold on_key_sets in Hmem, Hz, Hfr, Hmem2, Hsz2, Heq2.
  cbn [fst snd] in Hmem, Hz, Hfr, Hmem2, Hsz2, Heq2.
  rewrite <- Heq2 in Hmem2, Hsz2. cbn [fst snd] in Hmem2, Hsz2.
  split_and!; [| done | | |].
  - intros x. rewrite !Contains_key_sets. apply Hmem.
  - intros u Hu Hne x. rewrite !Contains_key_sets. apply Hfr; [|done].
    by apply wf_key_sets.
  - intros x. rewrite !Contains_key_sets. apply Hmem2.
  - by rewrite !Size_key_sets.
Qed.

(** X5 (for reflexive [==]).  [Delete(v...)] removes from [s] exactly the
    values of [v]; absent values are ignored.  It returns the number of
    members of [s] that occur in [v], and every set that does not share
    the storage of [s] is unchanged. *)
Theorem Delete_removes_reflexive s v h :
  Comparable.no_unfound h →
  (∀ x, Comparable.Contains self_equal
          (Comparable.Delete self_equal s v h).2 s x = true ↔
        Comparable.Contains self_equal h s x = true ∧ x ∉ v) ∧
  (Comparable.Delete self_equal s v h).1
    = Z.of_nat (size (filter (λ x, x ∈ v)
                        (Comparable.found (Comparable.deref h (m s))))) ∧
  (∀ u, m u ≠ m s →
        ∀ x, Comparable.Contains self_equal
               (Comparable.Delete self_equal s v h).2 u x
             = Comparable.Contains self_equal h u x).
Proof.
  intros Hpure. destruct (Delete_key_sets s v h Hpure) as [Heq Hpure'].
  destruct (Delete_removes s v (key_sets h)) as (Hmem & Hn & Hfr).
  rewrite <- Heq in Hmem, Hn, Hfr. unfold on_key_sets in Hmem, Hn, Hfr.
  cbn [fst snd] in Hmem, Hn, Hfr. split_and!.
  - intros x. rewrite !Contains_key_sets. apply Hmem.
  - by rewrite found_deref.
  - intros u Hne x. rewrite !Contains_key_sets. by apply Hfr.
Qed.

(** X6 (for reflexive [==]).  [DeleteFunc(del)] with a nil function removes
    nothing and returns 0.  Otherwise it removes exactly the members for
    which [del] returns true and returns how many there were, in whatever
    order the map is visited; every set that does not share the storage is
    unchanged. *)
Theorem DeleteFunc_removes_reflexive (tr : Comparable.Traversal (E:=E)) s
    (del : E → bool) h :
  Comparable.no_unfound h →
  Comparable.DeleteFunc self_equal tr s None h = (0, h) ∧
  (∀ x, Comparable.Contains self_equal
          (Comparable.DeleteFunc self_equal tr s (Some del) h).2 s x = true ↔
        Comparable.Contains self_equal h s x = true ∧ del x = false) ∧
  (Comparable.DeleteFunc self_equal tr s (Some del) h).1
    = Z.of_nat (size (filter (λ x, del x = true)
                        (Comparable.found (Comparable.deref h (m s))))) ∧
  (∀ u, m u ≠ m s →
        ∀ x, Comparable.Contains self_equal
               (Comparable.DeleteFunc self_equal tr s (Some del) h).2 u x
             = Comparable.Contains self_equal h u x).
Proof.
  intros Hpure.
  destruct (DeleteFunc_key_sets tr s (Some del) h Hpure) as [Heq Hpure'].
  destruct (DeleteFunc_removes (set_order tr) s del (key_sets h))
    as (_ & Hmem & Hn & Hfr).
  rewrite <- Heq in Hmem, Hn, Hfr. unfold on_key_sets in Hmem, Hn, Hfr.
  cbn [fst snd] in Hmem, Hn, Hfr. split_and!; [done| | |].
  - intros x. rewrite !Contains_key_sets. apply Hmem.
  - by rewrite found_deref.
  - intros u Hne x. rewrite !Contains_key_sets. by apply Hfr.
Qed.

(** X8 (for reflexive [==]).  [Pop] on an empty or zero set returns the
    zero value and false and changes nothing.  On a non-empty set it
    returns true and a member of the set, which it removes: the other
    members stay and the size drops by one. *)
Theorem Pop_removes_one_reflexive (tr : Comparable.Traversal (E:=E))
    (zeroE : E) s h :
  Comparable.no_unfound h →
  (Comparable.Size h s = 0 →
   Comparable.Pop self_equal tr zeroE s h = ((zeroE, false), h)) ∧
  (Comparable.Size h s ≠ 0 →
   (Comparable.Pop self_equal tr zeroE s h).1.2 = true ∧
   Comparable.Contains self_equal h s
     (Comparable.Pop self_equal tr zeroE s h).1.1 = true ∧
   (∀ y, Comparable.Contains self_equal
           (Comparable.Pop self_equal tr zeroE s h).2 s y = true ↔
         Comparable.Contains self_equal h s y = true ∧
         y ≠ (Comparable.Pop self_equal tr zeroE s h).1.1) ∧
   Comparable.Size (Comparable.Pop self_equal tr zeroE s h).2 s
     = Comparable.Size h s - 1).
Proof.
  intros Hpure.
  destruct (Pop_key_sets tr zeroE s h Hpure) as [Heq Hpure'].
  destruct (Pop_removes_one (set_order tr) zeroE s (key_sets h))
    as [_ Hpop].
  rewrite <- Heq in Hpop. unfold on_key_sets in Hpop.
  cbn [fst snd] in Hpop. rewrite <- Size_key_sets in Hpop by done.
  split.
  - intros Hz. unfold Comparable.Pop.
    by rewrite bool_decide_eq_true_2.
  - intros Hnz. destruct (Hpop Hnz) as (Hok & Hin & Hmem & Hsz).
    split_and!; [done| | |].
    + by rewrite Contains_key_sets.
    + intros y. rewrite !Contains_key_sets. apply Hmem.
    + by rewrite Size_key_sets.
Qed.

(** X10 (for reflexive [==]).  [ContainsFunc] with a nil function is
    false.  Otherwise it is true exactly when some member satisfies [f],
    whatever the order of the visit; after [DeleteFunc(f)] no member
    satisfies [f]. *)
Theorem ContainsFunc_exists_reflexive (tr tr' : Comparable.Traversal (E:=E))
    s (f : E → bool) h :
  Comparable.no_unfound h →
  Comparable.ContainsFunc tr h s None = false ∧
  (Comparable.ContainsFunc tr h s (Some f) = true ↔
   ∃ x, Comparable.Contains self_equal h s x = true ∧ f x = true) ∧
  Comparable.ContainsFunc tr
    (Comparable.DeleteFunc self_equal tr' s (Some f) h).2 s (Some f) = false.
Proof.
  intros Hpure.
  destruct (DeleteFunc_key_sets tr' s (Some f) h Hpure) as [Heq Hpure'].
  destruct (ContainsFunc_exists (set_order tr) (set_order tr') s f
              (key_sets h)) as (_ & Hex & Hdel).
  rewrite <- Heq in Hdel. unfold on_key_sets in Hdel. cbn [fst snd] in Hdel.
  split_and!; [done| |].
  - rewrite ContainsFunc_key_sets, Hex by done.
    by setoid_rewrite Contains_key_sets.
  - by rewrite ContainsFunc_key_sets.
Qed.

(** X12 (for reflexive [==]).  [Collect] returns the set of the values of
    the sequence: its members are exactly those values, its size is the
    number of distinct ones, it is a zero set exactly when the sequence is
    empty, and no existing set is changed. *)
Theorem Collect_elements_reflexive (seq : list E) h :
  Comparable.no_unfound h →
  (∀ x, Comparable.Contains self_equal (Comparable.Collect self_equal seq h).2
          (Comparable.Collect self_equal seq h).1 x = true ↔ x ∈ seq) ∧
  Comparable.Size (Comparable.Collect self_equal seq h).2
                  (Comparable.Collect self_equal seq h).1
    = Z.of_nat (length (remove_dups seq)) ∧
  (IsZero (Comparable.Collect self_equal seq h).1 = true ↔ seq = []) ∧
  (∀ u, Comparable.wf h u →
        ∀ x, Comparable.Contains self_equal
               (Comparable.Collect self_equal seq h).2 u x
             = Comparable.Contains self_equal h u x).
Proof.
  intros Hpure. destruct (Collect_key_sets seq h Hpure) as [Heq Hpure'].
  destruct (Collect_elements seq (key_sets h)) as (Hmem & Hsz & Hz & Hfr).
  rewrite <- Heq in Hmem, Hsz, Hz, Hfr.
  unfold on_key_sets in Hmem, Hsz, Hz, Hfr.
  cbn [fst snd] in Hmem, Hsz, Hz, Hfr. split_and!; [| |done|].
  - intros x. rewrite Contains_key_sets. apply Hmem.
  - by rewrite Size_key_sets.
  - intros u Hu x. rewrite !Contains_key_sets. apply Hfr.
    by apply wf_key_sets.
Qed.

(** X15 (for reflexive [==]).  [Equal] is true exactly when the two sets
    have the same members; whether a set is a zero set or an allocated one
    plays no part, so the zero set equals the set that [Of()] returns. *)
Theorem Equal_same_members_reflexive (tr : Comparable.Traversal (E:=E))
    s u h :
  Comparable.no_unfound h →
  (Comparable.Equal self_equal tr h s u = true ↔
   ∀ x, Comparable.Contains self_equal h s x
        = Comparable.Contains self_equal h u x) ∧
  Comparable.Equal self_equal tr (Comparable.Of self_equal [] h).2 zero
                   (Comparable.Of self_equal [] h).1 = true ∧
  Comparable.Equal self_equal tr (Comparable.Of self_equal [] h).2
                   (Comparable.Of self_equal [] h).1 zero = true.
Proof.
  intros Hpure. destruct (Of_key_sets [] h Hpure) as [Heq Hpure'].
  destruct (Equal_same_members (set_order tr) s u (key_sets h))
    as (Hiff & H1 & H2).
  rewrite <- Heq in H1, H2. unfold on_key_sets in H1, H2.
  cbn [fst snd] in H1, H2. split_and!.
  - rewrite Equal_key_sets, Hiff by done.
    by setoid_rewrite Contains_key_sets.
  - by rewrite Equal_key_sets.
  - by rewrite Equal_key_sets.
Qed.

End comparable_facts.

Section reflexive_instances.
Import IntKeys.

Lemma int_keys_reflexive : Comparable.reflexive self_equal.
Proof. intros x. reflexivity. Qed.

Lemma c_heap_no_unfound : Comparable.no_unfound c_heap.
Proof.
  apply (Of_key_sets self_equal int_keys_reflexive [1; 2; 3] ∅).
  intros l c Hl. by rewrite lookup_empty in Hl.
Qed.

Lemma c_set_wf : Comparable.wf c_heap c_set.
Proof. change (1%positive ∈ dom c_heap). compute_done. Qed.




(** X1 at [Of(1, 2, 3)] on the empty heap. *)
Lemma Of_elements_reflexive_witness :
  Comparable.Size c_heap c_set = 3 ∧
  ∀ x, Comparable.Contains self_equal c_heap c_set x = true ↔ x ∈ [1; 2; 3].
Proof.
  pose proof (Of_elements_reflexive self_equal int_keys_reflexive
                [1; 2; 3] ∅) as Hof.
  destruct Hof as (_ & Hmem & Hsz & _).
  - intros l c Hl. by rewrite lookup_empty in Hl.
  - split; [exact Hsz|exact Hmem].
Defined.

(** X2 at [c.Add(3, 4)]. *)
Lemma Add_elements_reflexive_witness :
  Comparable.wf c_heap c_set ∧
  ∀ x, Comparable.Contains self_equal
         (Comparable.Add self_equal c_set [3; 4] c_heap).2
         (Comparable.Add self_equal c_set [3; 4] c_heap).1 x = true ↔
       Comparable.Contains self_equal c_heap c_set x = true ∨ x ∈ [3; 4].
Proof.
  split; [exact c_set_wf|].
  exact (proj1 (Add_elements_reflexive self_equal int_keys_reflexive c_set
                  [3; 4] c_heap c_heap_no_unfound c_set_wf)).
Defined.

(** X5 at [c.Delete(2, 9)]. *)
Lemma Delete_removes_reflexive_witness :
  Comparable.no_unfound c_heap ∧
  ∀ x, Comparable.Contains self_equal
         (Comparable.Delete self_equal c_set [2; 9] c_heap).2 c_set x = true ↔
       Comparable.Contains self_equal c_heap c_set x = true ∧ x ∉ [2; 9].
Proof.
  split; [exact c_heap_no_unfound|].
  exact (proj1 (Delete_removes_reflexive self_equal int_keys_reflexive c_set
                  [2; 9] c_heap c_heap_no_unfound)).
Defined.

(** X6 at [c.DeleteFunc] with the test for even numbers. *)
Lemma DeleteFunc_removes_reflexive_witness :
  Comparable.no_unfound c_heap ∧
  ∀ x, Comparable.Contains self_equal
         (Comparable.DeleteFunc self_equal Comparable.entries_order c_set
            (Some Z.even) c_heap).2 c_set x = true ↔
       Comparable.Contains self_equal c_heap c_set x = true ∧
       Z.even x = false.
Proof.
  split; [exact c_heap_no_unfound|].
  exact (proj1 (proj2 (DeleteFunc_removes_reflexive self_equal
                         int_keys_reflexive Comparable.entries_order c_set
                         Z.even c_heap c_heap_no_unfound))).
Defined.

(** X8 at [c.Pop()]. *)
Lemma Pop_removes_one_reflexive_witness :
  Comparable.Size c_heap c_set ≠ 0 ∧
  Comparable.Size
    (Comparable.Pop self_equal Comparable.entries_order 0 c_set c_heap).2
    c_set = Comparable.Size c_heap c_set - 1.
Proof.
  assert (Comparable.Size c_heap c_set ≠ 0) as Hne by (by vm_compute).
  split; [exact Hne|].
  exact (proj2 (proj2 (proj2 (proj2
           (Pop_removes_one_reflexive self_equal int_keys_reflexive
              Comparable.entries_order 0 c_set c_heap c_heap_no_unfound)
           Hne)))).
Defined.

(** X10 at [c.ContainsFunc] with the test for even numbers. *)
Lemma ContainsFunc_exists_reflexive_witness :
  Comparable.no_unfound c_heap ∧
  Comparable.ContainsFunc Comparable.entries_order
    (Comparable.DeleteFunc self_equal Comparable.entries_order c_set
       (Some Z.even) c_heap).2 c_set (Some Z.even) = false.
Proof.
  split; [exact c_heap_no_unfound|].
  exact (proj2 (proj2 (ContainsFunc_exists_reflexive self_equal
                         int_keys_reflexive Comparable.entries_order
                         Comparable.entries_order c_set Z.even c_heap
                         c_heap_no_unfound))).
Defined.

(** X12 at [Collect] of the sequence 5, 6, 5. *)
Lemma Collect_elements_reflexive_witness :
  Comparable.no_unfound c_heap ∧
  Comparable.Size (Comparable.Collect self_equal [5; 6; 5] c_heap).2
                  (Comparable.Collect self_equal [5; 6; 5] c_heap).1
    = Z.of_nat (length (remove_dups [5; 6; 5])).
Proof.
  split; [exact c_heap_no_unfound|].
  exact (proj1 (proj2 (Collect_elements_reflexive self_equal
                         int_keys_reflexive [5; 6; 5] c_heap
                         c_heap_no_unfound))).
Defined.

(** X15 at the zero set and [Of()]. *)
Lemma Equal_same_members_reflexive_witness :
  Comparable.no_unfound c_heap ∧
  Comparable.Equal self_equal Comparable.entries_order
    (Comparable.Of self_equal [] c_heap).2 zero
    (Comparable.Of self_equal [] c_heap).1 = true.
Proof.
  split; [exact c_heap_no_unfound|].
  exact (proj1 (proj2 (Equal_same_members_reflexive self_equal
                         int_keys_reflexive Comparable.entries_order zero
                         zero c_heap c_heap_no_unfound))).
Defined.

End reflexive_instances.
